(** * Post utilities of the blog: a shallow embedding of [src/utils/post.ts]

    The file follows the source function by function.  JavaScript values are
    modelled as follows.

    - A [number] is an integer or one of the three special values
      [Infinity], [NegInfinity], [NaN].  Every finite number the functions
      below handle is an integer: a time stamp in milliseconds and the result
      of a collation, which a double holds exactly, and a parsed digit run,
      which [toNumber] rounds to the nearest double.
    - A string is a [String.string] holding the UTF-8 encoding of the text.
      The only characters the code inspects are ['/'] and the ASCII digits,
      which never occur inside the encoding of another character.
    - An array is a [list]; [Array.prototype.sort] returns the array it has
      reordered, here the reordered list.
    - An optional field ([category?: string], [draft?: boolean]) is an
      [option]; the value [None] stands both for a missing key and for
      [undefined]. *)

From Stdlib Require Import ZArith List Bool Ascii String Lia.
From Stdlib Require Import Permutation Sorted.
Import ListNotations.

Local Open Scope string_scope.
Local Open Scope Z_scope.

(** ** Numbers *)

Module Number.

Inductive number : Type :=
| Num (z : Z)
| Infinity
| NegInfinity
| NaN.

(** [a - b] *)
Definition sub (a b : number) : number :=
  match a, b with
  | NaN, _ | _, NaN => NaN
  | Num x, Num y => Num (x - y)
  | Num _, Infinity => NegInfinity
  | Num _, NegInfinity => Infinity
  | Infinity, Infinity => NaN
  | Infinity, _ => Infinity
  | NegInfinity, NegInfinity => NaN
  | NegInfinity, _ => NegInfinity
  end.

(** [a === b] on numbers: [NaN] differs from every number, itself included. *)
Definition strictEq (a b : number) : bool :=
  match a, b with
  | Num x, Num y => x =? y
  | Infinity, Infinity => true
  | NegInfinity, NegInfinity => true
  | _, _ => false
  end.

(** [a !== b] *)
Definition strictNeq (a b : number) : bool := negb (strictEq a b).

(** [a <= b]; every comparison with [NaN] is false. *)
Definition leb (a b : number) : bool :=
  match a, b with
  | NaN, _ | _, NaN => false
  | NegInfinity, _ => true
  | _, Infinity => true
  | Num x, Num y => x <=? y
  | _, _ => false
  end.

(** [a < b] *)
Definition ltb (a b : number) : bool :=
  match a, b with
  | NaN, _ | _, NaN => false
  | Infinity, _ => false
  | _, NegInfinity => false
  | Num x, Num y => x <? y
  | _, _ => true
  end.

Definition isNaN (a : number) : bool :=
  match a with NaN => true | _ => false end.

End Number.
Export Number.

(** The double nearest to a natural number [z], ties going to the even
    significand of 53 bits, and [Infinity] from [2 ^ 1024] on. *)
Definition roundNat (z : Z) : number :=
  if z <? 2 ^ 53 then Num z
  else
    let e := Z.log2 z - 52 in
    let q := z / 2 ^ e in
    let r := z mod 2 ^ e in
    let half := 2 ^ (e - 1) in
    let q' := if (half <? r) || ((r =? half) && Z.odd q) then q + 1 else q in
    let m := q' * 2 ^ e in
    if m <? 2 ^ 1024 then Num m else Infinity.

(** The Number for a mathematical integer. *)
Definition toNumber (z : Z) : number :=
  if z <? 0 then
    match roundNat (- z) with
    | Num m => Num (- m)
    | Infinity => NegInfinity
    | v => v
    end
  else roundNat z.

(** ** Strings *)

(** [\d] of a regular expression without the unicode flag: an ASCII digit. *)
Definition digitValue (c : ascii) : option Z :=
  let n := Z.of_nat (nat_of_ascii c) in
  if (48 <=? n) && (n <=? 57) then Some (n - 48) else None.

Definition isDigit (c : ascii) : bool :=
  match digitValue c with Some _ => true | None => false end.

(** [s.split(sep)] for a separator of one character.  The result is never
    empty: a string without the separator is returned as its only piece. *)
Fixpoint split (sep : ascii) (s : string) : list string :=
  match s with
  | EmptyString => [EmptyString]
  | String c s' =>
      if Ascii.eqb c sep then EmptyString :: split sep s'
      else match split sep s' with
           | seg :: rest => String c seg :: rest
           | [] => [String c EmptyString]
           end
  end.

(** The longest prefix of [s] made of digits: what the group [(\d+)] captures
    when it is anchored at the start of [s]. *)
Fixpoint digitRun (s : string) : string :=
  match s with
  | EmptyString => EmptyString
  | String c s' => if isDigit c then String c (digitRun s') else EmptyString
  end.

(** [s.match(/^(\d+)/)]: [None] is [null], [Some d] is a match whose first
    group is [d]. *)
Definition matchLeadingDigits (s : string) : option string :=
  match digitRun s with
  | EmptyString => None
  | d => Some d
  end.

(** The digits of [s] read from the left, continuing from the value [acc]. *)
Fixpoint parseDigits (acc : Z) (s : string) : Z :=
  match s with
  | EmptyString => acc
  | String c s' =>
      match digitValue c with
      | Some d => parseDigits (10 * acc + d) s'
      | None => acc
      end
  end.

(** [parseInt(s, 10)] on a string that starts with neither white space nor a
    sign, which is all that the capture of [(\d+)] can be: the Number for the
    value of the leading digits, [NaN] when there is none.  The value is
    taken from all the digits; past the twentieth significant digit the
    language also allows an implementation to read the digits as zeros. *)
Definition parseInt10 (s : string) : number :=
  match s with
  | EmptyString => NaN
  | String c _ => if isDigit c then toNumber (parseDigits 0 s) else NaN
  end.

(** ** Posts *)

(** [post.data]: the front matter of an entry.  [pubDate] is the value of
    [pubDate.valueOf()], the time stamp in milliseconds; the content schema
    allows no invalid date. *)
Record PostData : Type := mkData {
  pubDate : Z;
  category : option string;
  draft : option bool
}.

(** [CollectionEntry<ContentCollectionKey>] *)
Record CollectionEntry : Type := mkEntry {
  slug : string;
  data : PostData
}.

(** The fallback category, the literal ['未分类'] ("uncategorized"). *)
Definition uncategorized : string := "未分类".

(** ** [extractSequenceNumber] *)

(** [parts[parts.length - 1]] for the pieces of a split; the default is never
    used, see [filename_is_last_index]. *)
Definition filename (slug : string) : string :=
  let parts := split "/" slug in
  last parts EmptyString.

Definition extractSequenceNumber (slug : string) : number :=
  match matchLeadingDigits (filename slug) with
  | Some d => parseInt10 d
  | None => Infinity
  end.

(** ** [Array.prototype.sort]

    The language fixes the result of [sort] only for a consistent comparison
    function, and asks the sort to be stable; for such a function every
    stable sort returns the same array.  The model is the stable insertion
    sort: an element goes in front of the first element that it does not
    follow. *)

Section Sort.
Context {A : Type}.
Variable comparefn : A -> A -> number.

(** The value the sort uses for a pair: a comparison that is [NaN] counts
    as [+0]. *)
Definition SortCompare (x y : A) : number :=
  match comparefn x y with
  | NaN => Num 0
  | v => v
  end.

Fixpoint insert (x : A) (l : list A) : list A :=
  match l with
  | [] => [x]
  | y :: l' =>
      if Number.leb (SortCompare x y) (Num 0) then x :: y :: l'
      else y :: insert x l'
  end.

Fixpoint sort (l : list A) : list A :=
  match l with
  | [] => []
  | x :: l' => insert x (sort l')
  end.
End Sort.

(** [x] may stand in front of [y]: the comparison of [x] with [y] is not
    positive. *)
Definition notAfter {A : Type} (comparefn : A -> A -> number) (x y : A) : Prop :=
  Number.leb (SortCompare comparefn x y) (Num 0) = true.

(** [x] and [y] are tied: each may stand in front of the other. *)
Definition tied {A : Type} (comparefn : A -> A -> number) (x y : A) : bool :=
  Number.leb (SortCompare comparefn x y) (Num 0) &&
  Number.leb (SortCompare comparefn y x) (Num 0).

(** ** [getFilteredPosts] *)

(** [!v] for an optional boolean: [undefined] and [false] are falsy. *)
Definition not_ (v : option bool) : bool :=
  match v with
  | Some true => false
  | _ => true
  end.

Section Content.
(** [ContentCollectionKey] and the content of the site: the entries of each
    collection, in the order in which the content layer lists them. *)
Variable ContentCollectionKey : Type.
Variable content : ContentCollectionKey -> list CollectionEntry.

(** [getCollection(collection, filter)] of [astro:content]: the entries of
    the collection that the callback accepts, in their order.  The promise
    it returns is resolved with this list. *)
Definition getCollection (collection : ContentCollectionKey)
    (filter : CollectionEntry -> bool) : list CollectionEntry :=
  List.filter filter (content collection).

(** [PROD] is [import.meta.env.PROD]. *)
Definition getFilteredPosts (PROD : bool)
    (contentCollectionType : ContentCollectionKey) : list CollectionEntry :=
  getCollection contentCollectionType
    (fun entry => if PROD then not_ (draft (data entry)) else true).
End Content.

(** ** [getSortedPosts] *)

Definition byPubDate (a b : CollectionEntry) : number :=
  sub (Num (pubDate (data b))) (Num (pubDate (data a))).

Definition getSortedPosts (posts : list CollectionEntry) : list CollectionEntry :=
  sort byPubDate posts.

(** ** Categories *)

(** [v || dflt] for an optional string: [undefined] and the empty string are
    falsy. *)
Definition orElse (v : option string) (dflt : string) : string :=
  match v with
  | None => dflt
  | Some EmptyString => dflt
  | Some s => s
  end.

(** [('category' in data ? data.category : undefined) || '未分类'], the
    expression that [getSortedPostsByCategory] and [getUniqueCategories]
    both evaluate. *)
Definition categoryOf (d : PostData) : string :=
  orElse (category d) uncategorized.

(** [category1 === category2] on optional strings. *)
Definition isSameCategory (category1 category2 : option string) : bool :=
  match category1, category2 with
  | None, None => true
  | Some a, Some b => String.eqb a b
  | _, _ => false
  end.

(** A [Set<string>] in insertion order: [add] of a member changes nothing. *)
Definition setAdd (s : list string) (x : string) : list string :=
  if existsb (String.eqb x) s then s else s ++ [x].

Section Collation.
(** [a.localeCompare(b, 'zh-CN')]: the collation of the platform, negative,
    zero or positive. *)
Variable localeCompare : string -> string -> Z.

(** ** [getSortedPostsByCategory] *)

Definition byCategory (a b : CollectionEntry) : number :=
  let categoryA := categoryOf (data a) in
  let categoryB := categoryOf (data b) in
  let categoryCompare := localeCompare categoryA categoryB in
  if negb (categoryCompare =? 0) then Num categoryCompare
  else
    let seqA := extractSequenceNumber (slug a) in
    let seqB := extractSequenceNumber (slug b) in
    if strictNeq seqA seqB then sub seqA seqB
    else sub (Num (pubDate (data b))) (Num (pubDate (data a))).

Definition getSortedPostsByCategory (posts : list CollectionEntry)
    : list CollectionEntry :=
  sort byCategory posts.

(** ** [getUniqueCategories] *)

Definition collectCategories (posts : list CollectionEntry) : list string :=
  fold_left (fun categoriesSet post => setAdd categoriesSet (categoryOf (data post)))
    posts [].

Definition getUniqueCategories (posts : list CollectionEntry) : list string :=
  sort (fun a b => Num (localeCompare a b)) (collectCategories posts).
End Collation.

(** ** The readings of the specification *)

(** The category key as the specification words it: the category when it is
    present, the fallback when it is absent. *)
Definition specCategoryKey (d : PostData) : string :=
  match category d with
  | Some c => c
  | None => uncategorized
  end.

(** The value of a run of decimal digits, most significant first, by
    position. *)
Fixpoint decimalValue (ds : list Z) : Z :=
  match ds with
  | [] => 0
  | d :: r => d * 10 ^ Z.of_nat (List.length r) + decimalValue r
  end.

(** A string has no path separator. *)
Fixpoint noSlash (s : string) : bool :=
  match s with
  | EmptyString => true
  | String c s' => negb (Ascii.eqb c "/") && noSlash s'
  end.

(** A string is made of digits only. *)
Fixpoint allDigits (s : string) : bool :=
  match s with
  | EmptyString => true
  | String c s' => isDigit c && allDigits s'
  end.

Definition startsWithDigit (s : string) : bool :=
  match s with
  | EmptyString => false
  | String c _ => isDigit c
  end.

(** The digits of a string as numbers. *)
Fixpoint digitsOf (s : string) : list Z :=
  match s with
  | EmptyString => []
  | String c s' =>
      match digitValue c with
      | Some d => d :: digitsOf s'
      | None => []
      end
  end.

(** A collation by code units, a consistent comparison on which the
    statements below are tried.  It is not the collation of [zh-CN], which
    among other things puts the Chinese characters before the Latin letters;
    the two agree in putting the empty string first and the digits before
    the Chinese characters. *)
Definition codeUnitCompare (a b : string) : Z :=
  match String.compare a b with
  | Lt => -1
  | Eq => 0
  | Gt => 1
  end.

(** The order the category sort is to establish between an entry and a later
    one. *)
Definition categoryOrdered (localeCompare : string -> string -> Z)
    (x y : CollectionEntry) : Prop :=
  let c := localeCompare (categoryOf (data x)) (categoryOf (data y)) in
  c <= 0 /\
  (c = 0 ->
   Number.leb (extractSequenceNumber (slug x)) (extractSequenceNumber (slug y)) = true /\
   (extractSequenceNumber (slug x) = extractSequenceNumber (slug y) ->
    pubDate (data y) <= pubDate (data x))).

(** What is assumed of the collation: it is a consistent comparison, the
    sign of a comparison is reversed when its arguments are exchanged and
    "not after" is transitive. *)
Definition consistent (localeCompare : string -> string -> Z) : Prop :=
  (forall a b, Z.sgn (localeCompare b a) = - Z.sgn (localeCompare a b)) /\
  (forall a b c,
     localeCompare a b <= 0 -> localeCompare b c <= 0 -> localeCompare a c <= 0).

(** An entry whose empty category is taken away. *)
Definition withoutEmptyCategory (p : CollectionEntry) : CollectionEntry :=
  match category (data p) with
  | Some EmptyString => mkEntry (slug p) (mkData (pubDate (data p)) None (draft (data p)))
  | _ => p
  end.

(** [l1] is [l2] with some elements left out, the others in their order. *)
Inductive Subsequence {A : Type} : list A -> list A -> Prop :=
| Subsequence_nil : Subsequence [] []
| Subsequence_keep x l1 l2 : Subsequence l1 l2 -> Subsequence (x :: l1) (x :: l2)
| Subsequence_drop x l1 l2 : Subsequence l1 l2 -> Subsequence l1 (x :: l2).

(** [isDraft !== true] *)
Definition notDraft (e : CollectionEntry) : Prop := draft (data e) <> Some true.

(** The posts of the example of the specification. *)
Definition post (s : string) (c : option string) (d : Z) : CollectionEntry :=
  mkEntry s (mkData d c None).

Definition examplePosts : list CollectionEntry :=
  [post "a/2-x" (Some "A") 100; post "a/1-y" (Some "A") 200; post "b/z" (Some "B") 50].

(** ** Further notions used in the properties *)

(** The sign of a comparison, which is all the sort reads of it. *)
Definition sign (v : number) : Z :=
  match v with
  | Num z => Z.sgn z
  | Infinity => 1
  | NegInfinity => -1
  | NaN => 0
  end.

(** Two entries agree on the three keys of the category sort. *)
Definition sameKeys (localeCompare : string -> string -> Z)
    (z x : CollectionEntry) : bool :=
  (localeCompare (categoryOf (data z)) (categoryOf (data x)) =? 0) &&
  strictEq (extractSequenceNumber (slug z)) (extractSequenceNumber (slug x)) &&
  (pubDate (data z) =? pubDate (data x)).

(** ** The container of the article on inversion of control

    The class [Container] of the sample.  The services are any values of
    the language: the type of the values, the test [!v] and the test
    [typeof v === 'function'] are taken as given, and so is the effect of
    calling a value that is a function on the container, which returns or
    throws and may have changed the container it was given.  A call that
    does not return is not modelled. *)

Module IoC.
Section Services.
Variable value : Type.
(** [!v] is false. *)
Variable truthy : value -> bool.
(** [typeof v === 'function'] *)
Variable isFunction : value -> bool.

(** A [Map] with string keys, in insertion order: [set] of a key that is
    present replaces its value where it stands. *)
Definition Map : Type := list (string * value).

Fixpoint Map_get (m : Map) (name : string) : option value :=
  match m with
  | [] => None
  | (k, v) :: m' => if String.eqb k name then Some v else Map_get m' name
  end.

Fixpoint Map_set (m : Map) (name : string) (v : value) : Map :=
  match m with
  | [] => [(name, v)]
  | (k, w) :: m' =>
      if String.eqb k name then (k, v) :: m' else (k, w) :: Map_set m' name v
  end.

Record Container : Type := mkContainer { services : Map }.

(** [new Container()] *)
Definition newContainer : Container := mkContainer [].

(** What a call throws: the error of [get], or a value that the called
    function threw. *)
Inductive thrown : Type :=
| ServiceNotFound (name : string)
| Raised (e : value).

Inductive completion : Type :=
| Return (v : value)
| Throw (e : thrown).

(** [service(this)]: how the call completes, and the container after it. *)
Variable call : value -> Container -> completion * Container.

Definition register (name : string) (service : value) (this : Container)
    : Container :=
  mkContainer (Map_set (services this) name service).

Definition get (name : string) (this : Container) : completion * Container :=
  match Map_get (services this) name with
  | None => (Throw (ServiceNotFound name), this)
  | Some service =>
      if negb (truthy service) then (Throw (ServiceNotFound name), this)
      else if isFunction service then
        match call service this with
        | (Return instance, this') =>
            (Return instance,
             mkContainer (Map_set (services this') name instance))
        | (Throw e, this') => (Throw e, this')
        end
      else (Return service, this)
  end.
End Services.

(** The values of the sample: the two plain services, the order service
    with the two services injected into it, the factory that builds it, and
    [undefined]. *)
Inductive sample : Type :=
| PaymentService
| ShippingService
| OrderService (paymentService shippingService : sample)
| orderServiceFactory
| undefined.

Definition sampleTruthy (v : sample) : bool :=
  match v with undefined => false | _ => true end.

Definition sampleIsFunction (v : sample) : bool :=
  match v with orderServiceFactory => true | _ => false end.

(** The factory of the sample asks the container for the two services it
    injects, which are registered as plain services, and builds the order
    service from them.  The other values are not functions. *)
Definition sampleCall (f : sample) (this : Container sample)
    : completion sample * Container sample :=
  match f with
  | orderServiceFactory =>
      match Map_get sample (services sample this) "paymentService" with
      | None => (Throw sample (ServiceNotFound sample "paymentService"), this)
      | Some p =>
          match Map_get sample (services sample this) "shippingService" with
          | None => (Throw sample (ServiceNotFound sample "shippingService"), this)
          | Some s => (Return sample (OrderService p s), this)
          end
      end
  | _ => (Throw sample (Raised sample f), this)
  end.

(** The container of the sample after its three registrations. *)
Definition sampleContainer : Container sample :=
  register sample "orderService" orderServiceFactory
    (register sample "shippingService" ShippingService
       (register sample "paymentService" PaymentService (newContainer sample))).
End IoC.

(** * Properties *)

Example extractSequenceNumber_ex1 :
  extractSequenceNumber "langchain/1-basics" = Num 1.
Proof. reflexivity. Qed.

Example sortByCategory_example :
  map slug (getSortedPostsByCategory codeUnitCompare examplePosts)
  = ["a/1-y"; "a/2-x"; "b/z"].
Proof. reflexivity. Qed.

Example uniqueCategories_example :
  getUniqueCategories codeUnitCompare
    [post "c" None 1; post "e" (Some "0") 2; post "d" (Some "") 2;
     post "f" (Some "0") 3]
  = ["0"; uncategorized].
Proof. reflexivity. Qed.

(** ** The sort *)

Section SortFacts.
Context {A : Type}.
Variable comparefn : A -> A -> number.

Lemma insert_perm (x : A) (l : list A) :
  Permutation (x :: l) (insert comparefn x l).
Proof.
  induction l as [|y l IH]; simpl.
  - apply Permutation_refl.
  - destruct (Number.leb (SortCompare comparefn x y) (Num 0)).
    + apply Permutation_refl.
    + eapply perm_trans; [apply perm_swap|].
      now apply perm_skip.
Qed.

Lemma sort_perm (l : list A) : Permutation l (sort comparefn l).
Proof.
  induction l as [|x l IH]; simpl.
  - constructor.
  - eapply perm_trans; [|apply insert_perm].
    now apply perm_skip.
Qed.

Lemma sort_In (l : list A) (x : A) : In x (sort comparefn l) <-> In x l.
Proof.
  split; apply Permutation_in;
    [apply Permutation_sym|]; apply sort_perm.
Qed.

Lemma sort_length (l : list A) : List.length (sort comparefn l) = List.length l.
Proof. symmetry. apply Permutation_length, sort_perm. Qed.

Lemma sort_NoDup (l : list A) : NoDup l -> NoDup (sort comparefn l).
Proof. apply Permutation_NoDup, sort_perm. Qed.

(** With a consistent comparison the result is sorted. *)
Section Consistent.
Hypothesis total : forall x y, notAfter comparefn x y \/ notAfter comparefn y x.
Hypothesis trans : forall x y z,
  notAfter comparefn x y -> notAfter comparefn y z -> notAfter comparefn x z.

Lemma insert_sorted (x : A) (l : list A) :
  StronglySorted (notAfter comparefn) l ->
  StronglySorted (notAfter comparefn) (insert comparefn x l).
Proof.
  induction 1 as [|y l Hl IH Hy]; simpl.
  - repeat constructor.
  - destruct (Number.leb (SortCompare comparefn x y) (Num 0)) eqn:E.
    + constructor; [now constructor|].
      constructor; [exact E|].
      eapply Forall_impl; [|exact Hy].
      intros z Hz. now apply (trans x y z).
    + constructor; [exact IH|].
      assert (Hyx : notAfter comparefn y x).
      { destruct (total x y) as [H|H]; [|exact H].
        unfold notAfter in H. congruence. }
      eapply Permutation_Forall; [apply insert_perm|].
      now constructor.
Qed.

Lemma sort_sorted (l : list A) :
  StronglySorted (notAfter comparefn) (sort comparefn l).
Proof.
  induction l as [|x l IH]; simpl.
  - constructor.
  - now apply insert_sorted.
Qed.
(** The sort is stable: elements that are tied keep their order. *)
Lemma insert_stable (z x : A) (l : list A) :
  List.filter (tied comparefn z) (insert comparefn x l)
  = List.filter (tied comparefn z) (x :: l).
Proof.
  induction l as [|y l IH]; [reflexivity|].
  cbn [insert].
  destruct (Number.leb (SortCompare comparefn x y) (Num 0)) eqn:E;
    [reflexivity|].
  cbn [List.filter] in IH |- *. rewrite IH.
  destruct (tied comparefn z x) eqn:Ex, (tied comparefn z y) eqn:Ey;
    try reflexivity.
  exfalso. unfold tied in Ex, Ey.
  apply andb_prop in Ex as [_ Hxz], Ey as [Hzy _].
  pose proof (trans x z y Hxz Hzy) as H. unfold notAfter in H. congruence.
Qed.

Lemma sort_stable (z : A) (l : list A) :
  List.filter (tied comparefn z) (sort comparefn l)
  = List.filter (tied comparefn z) l.
Proof.
  induction l as [|x l IH]; [reflexivity|].
  cbn [sort]. rewrite insert_stable. cbn [List.filter]. now rewrite IH.
Qed.

Lemma tied_refl (x : A) : tied comparefn x x = true.
Proof.
  unfold tied. destruct (total x x) as [H|H]; unfold notAfter in H;
    now rewrite H.
Qed.

(** Two sorted arrays with the same tied elements in the same order are the
    same array: a stable sort has one possible result, the one of [sort]. *)
Lemma stable_sorted_unique (l1 l2 : list A) :
  StronglySorted (notAfter comparefn) l1 ->
  StronglySorted (notAfter comparefn) l2 ->
  (forall z, List.filter (tied comparefn z) l1
             = List.filter (tied comparefn z) l2) ->
  l1 = l2.
Proof.
  intros H1; revert l2; induction H1 as [|a l1 H1 IH Ha]; intros l2 H2 Hf.
  - destruct l2 as [|b l2]; [reflexivity|].
    specialize (Hf b). cbn [List.filter] in Hf.
    rewrite tied_refl in Hf. discriminate.
  - destruct l2 as [|b l2].
    { specialize (Hf a). cbn [List.filter] in Hf.
      rewrite tied_refl in Hf. discriminate. }
    inversion H2 as [|? ? H2' Hb]; subst.
    assert (Hab : tied comparefn a b = true).
    { unfold tied. apply andb_true_intro. split.
      - pose proof (Hf b) as Hfb. cbn [List.filter] in Hfb.
        rewrite (tied_refl b) in Hfb.
        destruct (tied comparefn b a) eqn:Eba.
        + apply andb_prop in Eba. tauto.
        + assert (In b l1) as Hin.
          { eapply (proj1 (filter_In (tied comparefn b) b l1)).
            rewrite Hfb. now left. }
          rewrite Forall_forall in Ha. exact (Ha b Hin).
      - pose proof (Hf a) as Hfa. cbn [List.filter] in Hfa.
        rewrite (tied_refl a) in Hfa.
        destruct (tied comparefn a b) eqn:Eab.
        + apply andb_prop in Eab. tauto.
        + assert (In a l2) as Hin.
          { eapply (proj1 (filter_In (tied comparefn a) a l2)).
            rewrite <- Hfa. now left. }
          rewrite Forall_forall in Hb. exact (Hb a Hin). }
    assert (a = b) as <-.
    { pose proof (Hf a) as Hfa. cbn [List.filter] in Hfa.
      rewrite (tied_refl a), Hab in Hfa. congruence. }
    f_equal. apply IH; [exact H2'|].
    intros z. specialize (Hf z). cbn [List.filter] in Hf.
    destruct (tied comparefn z a); congruence.
Qed.

(** So every stable sort agrees with [sort]. *)
Lemma stable_sort_is_sort (l l' : list A) :
  StronglySorted (notAfter comparefn) l' ->
  (forall z, List.filter (tied comparefn z) l'
             = List.filter (tied comparefn z) l) ->
  l' = sort comparefn l.
Proof.
  intros Hs Hf. apply stable_sorted_unique; [exact Hs|apply sort_sorted|].
  intros z. now rewrite sort_stable.
Qed.
End Consistent.
End SortFacts.

Lemma StronglySorted_weaken {A : Type} (R S : A -> A -> Prop) (l : list A) :
  (forall x y, R x y -> S x y) -> StronglySorted R l -> StronglySorted S l.
Proof.
  intros HRS; induction 1 as [|a l Hl IH Ha]; constructor.
  - exact IH.
  - eapply Forall_impl; [|exact Ha]. intros b; apply HRS.
Qed.

(** In a strongly sorted list an element is related to every later one. *)
Lemma StronglySorted_nth {A : Type} (R : A -> A -> Prop) (l : list A) :
  StronglySorted R l ->
  forall i j x y, (i < j)%nat ->
    nth_error l i = Some x -> nth_error l j = Some y -> R x y.
Proof.
  induction 1 as [|a l Hl IH Ha]; intros i j x y Hij Hi Hj.
  - destruct i; discriminate.
  - destruct j as [|j]; [lia|].
    destruct i as [|i]; simpl in *.
    + injection Hi as <-.
      rewrite Forall_forall in Ha. apply Ha.
      eapply nth_error_In; eassumption.
    + apply (IH i j); [lia|assumption..].
  Qed.

(** A comparison that does not see a change of the elements sorts the
    changed elements in the same way. *)
Lemma insert_map {A B : Type} (f : A -> B) (cA : A -> A -> number)
    (cB : B -> B -> number) (x : A) (l : list A) :
  (forall a b, cB (f a) (f b) = cA a b) ->
  insert cB (f x) (map f l) = map f (insert cA x l).
Proof.
  intros H; induction l as [|y l IH]; simpl; [reflexivity|].
  unfold SortCompare. rewrite H.
  destruct (Number.leb _ _); simpl; [reflexivity|].
  now rewrite <- IH.
Qed.

Lemma sort_map {A B : Type} (f : A -> B) (cA : A -> A -> number)
    (cB : B -> B -> number) (l : list A) :
  (forall a b, cB (f a) (f b) = cA a b) ->
  sort cB (map f l) = map f (sort cA l).
Proof.
  intros H; induction l as [|x l IH]; simpl; [reflexivity|].
  rewrite IH. now apply insert_map.
Qed.

(** ** Strings and sequence numbers *)

Lemma split_nonempty (sep : ascii) (s : string) : split sep s <> [].
Proof.
  destruct s as [|c s]; simpl; [discriminate|].
  destruct (Ascii.eqb c sep); [discriminate|].
  destruct (split sep s); discriminate.
Qed.

Lemma last_nth_error {A : Type} (l : list A) (d : A) :
  l <> [] -> nth_error l (List.length l - 1) = Some (last l d).
Proof.
  induction l as [|x l IH]; [congruence|intros _].
  destruct l as [|y l]; [reflexivity|].
  specialize (IH ltac:(discriminate)).
  replace (List.length (x :: y :: l) - 1)%nat with (S (List.length (y :: l) - 1))
    by (simpl; lia).
  exact IH.
Qed.

(** The index [parts.length - 1] is within the array of the pieces. *)
Lemma filename_is_last_index (slug : string) :
  nth_error (split "/" slug) (List.length (split "/" slug) - 1)
  = Some (filename slug).
Proof. apply last_nth_error, split_nonempty. Qed.

Lemma split_app (sep : ascii) (pre seg : string) :
  split sep (pre ++ String sep seg) = (split sep pre ++ split sep seg)%list.
Proof.
  induction pre as [|c pre IH]; simpl.
  - now rewrite Ascii.eqb_refl.
  - destruct (Ascii.eqb c sep); [now rewrite IH|].
    rewrite IH.
    destruct (split sep pre) as [|s0 r0] eqn:E; [|reflexivity].
    now destruct (split_nonempty sep pre).
Qed.

Lemma last_app_nonempty {A : Type} (l1 l2 : list A) (d : A) :
  l2 <> [] -> last (l1 ++ l2) d = last l2 d.
Proof.
  intros H; induction l1 as [|x l1 IH]; [reflexivity|].
  simpl app. destruct (l1 ++ l2)%list eqn:E.
  - destruct l1; [simpl in E; congruence|discriminate].
  - rewrite <- IH. reflexivity.
Qed.

Lemma filename_after_slash (pre seg : string) :
  filename (pre ++ String "/" seg) = filename seg.
Proof.
  unfold filename. rewrite split_app.
  apply last_app_nonempty, split_nonempty.
Qed.

Lemma split_noSlash (s : string) : noSlash s = true -> split "/" s = [s].
Proof.
  induction s as [|c s IH]; simpl; [reflexivity|].
  destruct (Ascii.eqb c "/"); simpl; [discriminate|].
  intros H. now rewrite IH.
Qed.

Lemma filename_noSlash (s : string) : noSlash s = true -> filename s = s.
Proof. intros H. unfold filename. now rewrite split_noSlash. Qed.

Lemma append_assoc (a b c : string) : (a ++ b) ++ c = a ++ (b ++ c).
Proof. induction a as [|x a IH]; simpl; [reflexivity|now rewrite IH]. Qed.

(** The file name of a slug is what follows its last separator. *)
Lemma filename_last_segment (pre seg : string) :
  noSlash seg = true -> (pre = "" \/ exists p, pre = p ++ "/") ->
  filename (pre ++ seg) = seg.
Proof.
  intros Hseg [->|[p ->]].
  - now apply filename_noSlash.
  - rewrite append_assoc. simpl append at 2.
    rewrite filename_after_slash. now apply filename_noSlash.
Qed.

(** Every slug ends with such a segment. *)
Lemma slug_last_segment (slug : string) :
  exists pre seg, slug = pre ++ seg /\ noSlash seg = true /\
                  (pre = "" \/ exists p, pre = p ++ "/").
Proof.
  induction slug as [|c s (pre & seg & -> & Hseg & Hpre)].
  - exists "", "". auto.
  - destruct Hpre as [->|[p ->]].
    + destruct (Ascii.eqb c "/") eqn:E.
      * apply Ascii.eqb_eq in E; subst c.
        exists "/", seg. repeat split; auto.
        right. now exists "".
      * exists "", (String c seg). repeat split; auto.
        simpl. now rewrite E.
    + exists (String c p ++ "/"), seg. repeat split; auto.
      right. now exists (String c p).
Qed.

Lemma digitRun_app (ds rest : string) :
  allDigits ds = true -> startsWithDigit rest = false ->
  digitRun (ds ++ rest) = ds.
Proof.
  intros Hds Hrest; induction ds as [|c ds IH]; simpl in *.
  - destruct rest as [|c r]; [reflexivity|].
    simpl in Hrest |- *. now rewrite Hrest.
  - apply andb_prop in Hds as [Hc Hds]. rewrite Hc. now rewrite IH.
Qed.

(** A segment is its leading digits followed by a rest without one. *)
Lemma digitRun_prefix (s : string) :
  exists rest, s = digitRun s ++ rest /\ allDigits (digitRun s) = true /\
               startsWithDigit rest = false.
Proof.
  induction s as [|c s (rest & E & Hd & Hr)]; simpl.
  - now exists "".
  - destruct (isDigit c) eqn:Ec.
    + exists rest. simpl. rewrite Ec, Hd. rewrite <- E. auto.
    + exists (String c s). simpl. auto.
Qed.

Lemma digitRun_empty (s : string) :
  digitRun s = "" <-> startsWithDigit s = false.
Proof.
  destruct s as [|c s]; simpl; [tauto|].
  destruct (isDigit c); split; congruence.
Qed.

Lemma digitsOf_length (ds : string) :
  allDigits ds = true -> List.length (digitsOf ds) = String.length ds.
Proof.
  induction ds as [|c ds IH]; simpl; [reflexivity|].
  unfold isDigit. destruct (digitValue c); simpl; [|discriminate].
  intros H. now rewrite IH.
Qed.

(** Reading the digits from the left computes their positional value. *)
Lemma parseDigits_value (ds : string) (acc : Z) :
  allDigits ds = true ->
  parseDigits acc ds
  = acc * 10 ^ Z.of_nat (String.length ds) + decimalValue (digitsOf ds).
Proof.
  revert acc; induction ds as [|c ds IH]; intros acc;
    cbn [parseDigits allDigits digitsOf].
  - intros _. cbn [decimalValue String.length]. change (10 ^ Z.of_nat 0) with 1. lia.
  - unfold isDigit. destruct (digitValue c) as [d|]; [|discriminate].
    cbn [andb]. intros H. rewrite (IH _ H).
    cbn [decimalValue String.length]. rewrite (digitsOf_length _ H).
    rewrite Nat2Z.inj_succ, Z.pow_succ_r by lia. ring.
Qed.

Lemma toNumber_exact (z : Z) : 0 <= z <= 2 ^ 53 -> toNumber z = Num z.
Proof.
  intros [H0 H1]. unfold toNumber.
  destruct (Z.ltb_spec z 0); [lia|]. unfold roundNat.
  destruct (Z.ltb_spec z (2 ^ 53)); [reflexivity|].
  assert (z = 2 ^ 53) as -> by lia. reflexivity.
Qed.

Lemma toNumber_nonneg (z : Z) :
  0 <= z -> toNumber z = Infinity \/ exists n, 0 <= n /\ toNumber z = Num n.
Proof.
  intros H0. unfold toNumber.
  destruct (Z.ltb_spec z 0); [lia|]. unfold roundNat. cbv zeta.
  destruct (z <? 2 ^ 53); [right; now exists z|].
  set (e := Z.log2 z - 52).
  assert (Hq : 0 <= z / 2 ^ e).
  { apply Z_div_nonneg_nonneg; [exact H0|]. apply Z.pow_nonneg. lia. }
  assert (Hp : 0 <= 2 ^ e) by (apply Z.pow_nonneg; lia).
  match goal with
  | |- context [if ?b then z / 2 ^ e + 1 else z / 2 ^ e] =>
      set (q' := if b then z / 2 ^ e + 1 else z / 2 ^ e)
  end.
  assert (Hq' : 0 <= q') by (subst q'; destruct (_ || _); lia).
  destruct (q' * 2 ^ e <? 2 ^ 1024); [right|now left].
  eexists; split; [|reflexivity]. now apply Z.mul_nonneg_nonneg.
Qed.

Lemma parseInt10_digits (ds : string) :
  ds <> "" -> allDigits ds = true ->
  parseInt10 ds = toNumber (decimalValue (digitsOf ds)).
Proof.
  intros Hne H. destruct ds as [|c ds]; [congruence|].
  unfold parseInt10.
  assert (Hc : isDigit c = true) by (simpl in H; now apply andb_prop in H).
  rewrite Hc, (parseDigits_value _ 0 H). reflexivity.
Qed.

Lemma digitValue_nonneg (c : ascii) (d : Z) : digitValue c = Some d -> 0 <= d.
Proof.
  unfold digitValue. cbv zeta.
  destruct (Z.leb_spec 48 (Z.of_nat (nat_of_ascii c))) as [E|E];
    cbn [andb]; [|discriminate].
  destruct (_ <=? 57); [|discriminate].
  intros [= <-]. lia.
Qed.

Lemma parseDigits_nonneg (s : string) (acc : Z) : 0 <= acc -> 0 <= parseDigits acc s.
Proof.
  revert acc; induction s as [|c s IH]; intros acc H; cbn [parseDigits];
    [exact H|].
  destruct (digitValue c) as [d|] eqn:E; [|exact H].
  apply IH. apply digitValue_nonneg in E. lia.
Qed.

(** A sequence number is a natural number or the sentinel. *)
Lemma extractSequenceNumber_range (slug : string) :
  extractSequenceNumber slug = Infinity \/
  exists n, 0 <= n /\ extractSequenceNumber slug = Num n.
Proof.
  unfold extractSequenceNumber, matchLeadingDigits.
  destruct (digitRun (filename slug)) as [|c d] eqn:E; [now left|].
  unfold parseInt10.
  assert (Hc : isDigit c = true).
  { destruct (filename slug) as [|c' s']; simpl in E; [discriminate|].
    destruct (isDigit c') eqn:E'; [|discriminate]. now injection E as <- _. }
  rewrite Hc. apply toNumber_nonneg. now apply parseDigits_nonneg.
Qed.

Lemma decimalValue_digitsOf_nonneg (ds : string) :
  allDigits ds = true -> 0 <= decimalValue (digitsOf ds).
Proof.
  intros H. pose proof (parseDigits_value ds 0 H) as E.
  pose proof (parseDigits_nonneg ds 0 (Z.le_refl 0)) as Hn. lia.
Qed.

(** C2, as the code has it.  [extractSequenceNumber] looks at the last
    segment of the slug, the part after the last ['/'] (the whole slug when
    there is none).  When the segment starts with digits, the result is the
    Number for the decimal value of the whole leading run of digits: the
    value itself when it is at most [2 ^ 53], the nearest double in general.
    When the segment starts with no digit, the result is [Infinity], which
    is greater than every finite number.  So ["langchain/1-basics"] gives 1,
    ["langchain/basics"] gives [Infinity] and ["10"] gives 10. *)
Theorem extractSequenceNumber_spec (slug pre seg : string) :
  slug = pre ++ seg -> noSlash seg = true ->
  (pre = "" \/ exists p, pre = p ++ "/") ->
  (forall ds rest,
     seg = ds ++ rest -> ds <> "" -> allDigits ds = true ->
     startsWithDigit rest = false ->
     extractSequenceNumber slug = toNumber (decimalValue (digitsOf ds)) /\
     (decimalValue (digitsOf ds) <= 2 ^ 53 ->
      extractSequenceNumber slug = Num (decimalValue (digitsOf ds)))) /\
  (startsWithDigit seg = false -> extractSequenceNumber slug = Infinity) /\
  (forall n, Number.ltb (Num n) Infinity = true) /\
  extractSequenceNumber "langchain/1-basics" = Num 1 /\
  extractSequenceNumber "langchain/basics" = Infinity /\
  extractSequenceNumber "10" = Num 10.
Proof.
  intros -> Hseg Hpre.
  unfold extractSequenceNumber at 1 2 3, matchLeadingDigits.
  rewrite (filename_last_segment _ _ Hseg Hpre).
  split; [|split; [|split; [|repeat split]]].
  - intros ds rest -> Hne Hds Hrest.
    rewrite (digitRun_app _ _ Hds Hrest).
    pose proof (parseInt10_digits ds Hne Hds) as E.
    pose proof (decimalValue_digitsOf_nonneg ds Hds) as Hn.
    destruct ds as [|c ds]; [congruence|]. cbv beta iota. rewrite E.
    split; [reflexivity|]. intros Hb. apply toNumber_exact.
    split; [exact Hn|exact Hb].
  - intros H. apply digitRun_empty in H. now rewrite H.
  - reflexivity.
Qed.

Lemma extractSequenceNumber_spec_witness :
  extractSequenceNumber "notes/2024/12-intro" = Num (decimalValue [1; 2]).
Proof.
  refine (proj2 (proj1 (extractSequenceNumber_spec "notes/2024/12-intro"
                          "notes/2024/" "12-intro" eq_refl eq_refl _)
                   "12" "-intro" eq_refl _ eq_refl eq_refl) _).
  - right. exists "notes/2024". reflexivity.
  - discriminate.
  - discriminate.
Defined.

(** C2 as it is worded fails for a run of digits whose value no double
    holds: the result is the nearest double, not the value read. *)
Lemma extractSequenceNumber_rounds :
  extractSequenceNumber "9007199254740993-x" = Num 9007199254740992 /\
  extractSequenceNumber "9007199254740993-x"
  <> Num (decimalValue (digitsOf "9007199254740993")).
Proof. split; [vm_compute; reflexivity|vm_compute; discriminate]. Qed.

(** A run of digits beyond the range of the doubles gives the sentinel
    itself. *)
Example extractSequenceNumber_overflow :
  extractSequenceNumber
    ("1000000000000000000000000000000000000000000000000000000000000"
     ++ "0000000000000000000000000000000000000000000000000000000000000"
     ++ "0000000000000000000000000000000000000000000000000000000000000"
     ++ "0000000000000000000000000000000000000000000000000000000000000"
     ++ "0000000000000000000000000000000000000000000000000000000000000"
     ++ "00000-x")
  = Infinity.
Proof. vm_compute. reflexivity. Qed.

(** ** The comparison of [getSortedPostsByCategory] *)

Lemma Number_leb_refl_seq (slug : string) :
  Number.leb (extractSequenceNumber slug) (extractSequenceNumber slug) = true.
Proof.
  destruct (extractSequenceNumber_range slug) as [->|(n & _ & ->)]; simpl;
    [reflexivity|apply Z.leb_refl].
Qed.

Section ByCategory.
Variable localeCompare : string -> string -> Z.

(** The comparison is never [NaN]: the difference of two sequence numbers
    is taken only when they differ. *)
Lemma byCategory_not_NaN (a b : CollectionEntry) :
  isNaN (byCategory localeCompare a b) = false.
Proof.
  unfold byCategory. cbv zeta.
  destruct (negb _); [reflexivity|].
  destruct (extractSequenceNumber_range (slug a)) as [->|(n & _ & ->)];
    destruct (extractSequenceNumber_range (slug b)) as [->|(m & _ & ->)];
    simpl; try reflexivity.
  unfold strictNeq; simpl. now destruct (n =? m).
Qed.

Lemma SortCompare_byCategory (a b : CollectionEntry) :
  SortCompare (byCategory localeCompare) a b = byCategory localeCompare a b.
Proof.
  unfold SortCompare. pose proof (byCategory_not_NaN a b) as H.
  now destruct (byCategory localeCompare a b).
Qed.

(** What the comparison decides, key by key. *)
Lemma notAfter_byCategory (x y : CollectionEntry) :
  notAfter (byCategory localeCompare) x y <-> categoryOrdered localeCompare x y.
Proof.
  unfold notAfter, categoryOrdered. rewrite SortCompare_byCategory.
  unfold byCategory. cbv zeta.
  set (c := localeCompare (categoryOf (data x)) (categoryOf (data y))).
  destruct (Z.eqb_spec c 0) as [E|E]; cbn [negb].
  - destruct (extractSequenceNumber_range (slug x)) as [->|(n & _ & ->)];
      destruct (extractSequenceNumber_range (slug y)) as [->|(m & _ & ->)];
      unfold strictNeq; cbn [strictEq negb sub Number.leb].
    + rewrite Z.leb_le. intuition lia.
    + intuition (try discriminate; try lia).
    + intuition (try discriminate; try lia).
    + destruct (Z.eqb_spec n m) as [->|Hnm]; cbn [negb sub Number.leb];
        rewrite ?Z.leb_le.
      * intuition lia.
      * split; [intros H|intros (_ & H)].
        -- split; [lia|]. intros _. split; [lia|]. intros [= ?]. lia.
        -- specialize (H E). lia.
  - cbn [Number.leb]. rewrite Z.leb_le. intuition lia.
Qed.

Hypothesis localeCompare_antisym : forall a b,
  Z.sgn (localeCompare b a) = - Z.sgn (localeCompare a b).
Hypothesis localeCompare_trans : forall a b c,
  localeCompare a b <= 0 -> localeCompare b c <= 0 -> localeCompare a c <= 0.

Lemma localeCompare_flip (a b : string) :
  (localeCompare a b <= 0 <-> 0 <= localeCompare b a) /\
  (localeCompare a b = 0 <-> localeCompare b a = 0).
Proof.
  pose proof (localeCompare_antisym a b) as H.
  destruct (Z.sgn_spec (localeCompare a b)) as [(?&E)|[(?&E)|(?&E)]];
    destruct (Z.sgn_spec (localeCompare b a)) as [(?&E')|[(?&E')|(?&E')]];
    rewrite E, E' in H; lia.
Qed.

Lemma categoryOrdered_total (x y : CollectionEntry) :
  categoryOrdered localeCompare x y \/ categoryOrdered localeCompare y x.
Proof.
  unfold categoryOrdered. cbv zeta.
  destruct (localeCompare_flip (categoryOf (data x)) (categoryOf (data y)))
    as [Hle Heq].
  set (c := localeCompare (categoryOf (data x)) (categoryOf (data y))) in *.
  set (c' := localeCompare (categoryOf (data y)) (categoryOf (data x))) in *.
  destruct (Z.lt_total c 0) as [Hc|[Hc|Hc]];
    [left; split; [lia|intros; lia] | | right; split; [lia|intros; lia]].
  assert (Hc' : c' = 0) by lia.
  destruct (extractSequenceNumber_range (slug x)) as [->|(n & _ & ->)];
    destruct (extractSequenceNumber_range (slug y)) as [->|(m & _ & ->)];
    cbn [Number.leb]; rewrite ?Z.leb_le.
  - destruct (Z.le_ge_cases (pubDate (data y)) (pubDate (data x)));
      [left|right]; intuition lia.
  - right. intuition (try lia). discriminate.
  - left. intuition (try lia). discriminate.
  - destruct (Z.lt_total n m) as [?|[->|?]].
    + left. split; [lia|]. intros _. split; [lia|]. intros [= ?]. lia.
    + destruct (Z.le_ge_cases (pubDate (data y)) (pubDate (data x)));
        [left|right]; intuition lia.
    + right. split; [lia|]. intros _. split; [lia|]. intros [= ?]. lia.
Qed.

Lemma categoryOrdered_trans (x y z : CollectionEntry) :
  categoryOrdered localeCompare x y -> categoryOrdered localeCompare y z ->
  categoryOrdered localeCompare x z.
Proof.
  unfold categoryOrdered. cbv zeta.
  pose proof (localeCompare_trans (categoryOf (data x)) (categoryOf (data y))
                (categoryOf (data z))) as Txyz.
  pose proof (localeCompare_trans (categoryOf (data y)) (categoryOf (data z))
                (categoryOf (data x))) as Tyzx.
  pose proof (localeCompare_trans (categoryOf (data z)) (categoryOf (data x))
                (categoryOf (data y))) as Tzxy.
  destruct (localeCompare_flip (categoryOf (data x)) (categoryOf (data y)))
    as [Fxy Exy].
  destruct (localeCompare_flip (categoryOf (data y)) (categoryOf (data z)))
    as [Fyz Eyz].
  destruct (localeCompare_flip (categoryOf (data x)) (categoryOf (data z)))
    as [Fxz Exz].
  set (cxy := localeCompare (categoryOf (data x)) (categoryOf (data y))) in *.
  set (cyz := localeCompare (categoryOf (data y)) (categoryOf (data z))) in *.
  set (cxz := localeCompare (categoryOf (data x)) (categoryOf (data z))) in *.
  set (cyx := localeCompare (categoryOf (data y)) (categoryOf (data x))) in *.
  set (czy := localeCompare (categoryOf (data z)) (categoryOf (data y))) in *.
  set (czx := localeCompare (categoryOf (data z)) (categoryOf (data x))) in *.
  intros (Hxy & Kxy) (Hyz & Kyz).
  split; [now apply Txyz|]. intros E0.
  assert (cxy = 0) as Zxy by lia.
  assert (cyz = 0) as Zyz by lia.
  specialize (Kxy Zxy). specialize (Kyz Zyz). clear - Kxy Kyz.
  destruct Kxy as (Lxy & Dxy), Kyz as (Lyz & Dyz).
  destruct (extractSequenceNumber_range (slug x)) as [Sx|(n & _ & Sx)];
    destruct (extractSequenceNumber_range (slug y)) as [Sy|(m & _ & Sy)];
    destruct (extractSequenceNumber_range (slug z)) as [Sz|(k & _ & Sz)];
    rewrite Sx, Sy, Sz in *; cbn [Number.leb] in *;
    try discriminate; rewrite ?Z.leb_le in *.
  all: split; [first [reflexivity | lia]|].
  all: intros Heq; try discriminate Heq.
  - specialize (Dxy eq_refl). specialize (Dyz eq_refl). lia.
  - injection Heq as ->. assert (m = k) as -> by lia.
    specialize (Dxy eq_refl). specialize (Dyz eq_refl). lia.
Qed.

Lemma getSortedPostsByCategory_sorted (posts : list CollectionEntry) :
  StronglySorted (categoryOrdered localeCompare)
    (getSortedPostsByCategory localeCompare posts).
Proof.
  apply StronglySorted_weaken with (R := notAfter (byCategory localeCompare)).
  - intros x y. apply notAfter_byCategory.
  - apply sort_sorted.
    + intros x y. rewrite !notAfter_byCategory. apply categoryOrdered_total.
    + intros x y z. rewrite !notAfter_byCategory. apply categoryOrdered_trans.
Qed.
End ByCategory.

(** ** The collation by code units is consistent *)

Lemma string_compare_trans (a b c : string) :
  String.compare a b <> Gt -> String.compare b c <> Gt -> String.compare a c <> Gt.
Proof.
  revert b c; induction a as [|x a IH]; intros [|y b] [|z c]; simpl;
    try congruence.
  unfold Ascii.compare.
  destruct (N.compare_spec (N_of_ascii x) (N_of_ascii y)) as [Exy|Lxy|Lxy];
    destruct (N.compare_spec (N_of_ascii y) (N_of_ascii z)) as [Eyz|Lyz|Lyz];
    destruct (N.compare_spec (N_of_ascii x) (N_of_ascii z)) as [Exz|Lxz|Lxz];
    try congruence; try lia.
  apply IH.
Qed.

Lemma codeUnitCompare_consistent : consistent codeUnitCompare.
Proof.
  split.
  - intros a b. unfold codeUnitCompare.
    rewrite (String.compare_antisym b a).
    now destruct (String.compare a b).
  - intros a b c Hab Hbc. unfold codeUnitCompare in *.
    pose proof (string_compare_trans a b c) as H.
    destruct (String.compare a b), (String.compare b c), (String.compare a c);
      try lia; exfalso; apply H; congruence.
Qed.

(** ** [getSortedPostsByCategory] and [getSortedPosts] *)

(** C1, as the code has it.  In the result of [getSortedPostsByCategory], an
    entry [X] that stands before an entry [Y] has a category key that is not
    after that of [Y] in the collation, the key being the category, or the
    fallback when the category is absent or the empty string; when the two
    keys collate equal, the sequence number of [X] is at most that of [Y], a
    missing number being [Infinity]; and when the sequence numbers are equal
    as well, [X] is not older than [Y]. *)
Theorem getSortedPostsByCategory_ordered
    (localeCompare : string -> string -> Z) (posts : list CollectionEntry)
    (i j : nat) (X Y : CollectionEntry) :
  consistent localeCompare ->
  (i < j)%nat ->
  nth_error (getSortedPostsByCategory localeCompare posts) i = Some X ->
  nth_error (getSortedPostsByCategory localeCompare posts) j = Some Y ->
  localeCompare (categoryOf (data X)) (categoryOf (data Y)) <= 0 /\
  (localeCompare (categoryOf (data X)) (categoryOf (data Y)) = 0 ->
   Number.leb (extractSequenceNumber (slug X)) (extractSequenceNumber (slug Y)) = true /\
   (extractSequenceNumber (slug X) = extractSequenceNumber (slug Y) ->
    pubDate (data Y) <= pubDate (data X))).
Proof.
  intros [Hanti Htrans] Hij HX HY.
  change (categoryOrdered localeCompare X Y).
  eapply StronglySorted_nth; [|exact Hij|exact HX|exact HY].
  now apply getSortedPostsByCategory_sorted.
Qed.

Lemma getSortedPostsByCategory_ordered_witness :
  categoryOrdered codeUnitCompare
    (post "a/1-y" (Some "A") 200) (post "a/2-x" (Some "A") 100).
Proof.
  apply (getSortedPostsByCategory_ordered codeUnitCompare examplePosts 0 1).
  - exact codeUnitCompare_consistent.
  - lia.
  - reflexivity.
  - reflexivity.
Defined.

(** An entry whose category is the empty string is sorted under the
    fallback.  For every collation that puts ["0"] before the fallback and
    after the empty string, as the collation of [zh-CN] does, it therefore
    comes behind an entry of category ["0"], although its category, the
    empty string, collates before ["0"]. *)
Lemma empty_category_behind_digit (localeCompare : string -> string -> Z) :
  localeCompare "0" uncategorized < 0 ->
  0 < localeCompare uncategorized "0" ->
  0 < localeCompare "0" "" ->
  nth_error (getSortedPostsByCategory localeCompare
               [post "x/1-a" (Some "") 0; post "x/2-b" (Some "0") 0]) 0
  = Some (post "x/2-b" (Some "0") 0) /\
  nth_error (getSortedPostsByCategory localeCompare
               [post "x/1-a" (Some "") 0; post "x/2-b" (Some "0") 0]) 1
  = Some (post "x/1-a" (Some "") 0) /\
  ~ localeCompare (specCategoryKey (data (post "x/2-b" (Some "0") 0)))
      (specCategoryKey (data (post "x/1-a" (Some "") 0))) <= 0.
Proof.
  intros H1 H2 H3.
  assert (E : getSortedPostsByCategory localeCompare
                [post "x/1-a" (Some "") 0; post "x/2-b" (Some "0") 0]
              = [post "x/2-b" (Some "0") 0; post "x/1-a" (Some "") 0]).
  { unfold getSortedPostsByCategory. cbn [sort insert].
    unfold SortCompare, byCategory. cbv zeta.
    change (categoryOf (data (post "x/1-a" (Some "") 0))) with uncategorized.
    change (categoryOf (data (post "x/2-b" (Some "0") 0))) with "0".
    destruct (Z.eqb_spec (localeCompare uncategorized "0") 0) as [E0|_];
      [lia|]. cbn [negb Number.leb].
    destruct (Z.leb_spec (localeCompare uncategorized "0") 0); [lia|].
    reflexivity. }
  rewrite E. split; [reflexivity|]. split; [reflexivity|].
  change (~ localeCompare "0" "" <= 0). lia.
Qed.

(** C1 as it is worded, with the fallback for an absent category only, fails
    for an entry whose category is the empty string: the entry is sorted
    under the fallback, behind the category ["0"], while the empty string
    collates before ["0"]. *)
Lemma getSortedPostsByCategory_empty_category :
  nth_error (getSortedPostsByCategory codeUnitCompare
               [post "x/1-a" (Some "") 0; post "x/2-b" (Some "0") 0]) 0
  = Some (post "x/2-b" (Some "0") 0) /\
  nth_error (getSortedPostsByCategory codeUnitCompare
               [post "x/1-a" (Some "") 0; post "x/2-b" (Some "0") 0]) 1
  = Some (post "x/1-a" (Some "") 0) /\
  ~ codeUnitCompare (specCategoryKey (data (post "x/2-b" (Some "0") 0)))
      (specCategoryKey (data (post "x/1-a" (Some "") 0))) <= 0.
Proof.
  apply (empty_category_behind_digit codeUnitCompare);
    vm_compute; reflexivity.
Qed.

(** Equal keys collate equal, so the statement covers entries of the same
    category. *)
Lemma consistent_refl (localeCompare : string -> string -> Z) (a : string) :
  consistent localeCompare -> localeCompare a a = 0.
Proof.
  intros [Hanti _]. specialize (Hanti a a).
  destruct (Z.sgn_spec (localeCompare a a)) as [(?&E)|[(?&E)|(?&E)]];
    rewrite E in Hanti; lia.
Qed.

Lemma byPubDate_notAfter (x y : CollectionEntry) :
  notAfter byPubDate x y <-> pubDate (data y) <= pubDate (data x).
Proof.
  unfold notAfter, SortCompare, byPubDate. cbn [sub Number.leb].
  rewrite Z.leb_le. lia.
Qed.

(** C5. The result of [getSortedPosts] is non-increasing in [pubDate]: every
    entry is at least as recent as every entry after it. *)
Theorem getSortedPosts_sorted (posts : list CollectionEntry) :
  StronglySorted (fun x y => pubDate (data y) <= pubDate (data x))
    (getSortedPosts posts).
Proof.
  apply StronglySorted_weaken with (R := notAfter byPubDate).
  - intros x y. apply byPubDate_notAfter.
  - apply sort_sorted.
    + intros x y. rewrite !byPubDate_notAfter. lia.
    + intros x y z. rewrite !byPubDate_notAfter. lia.
Qed.

(** C7. Both sorts return a permutation of the entries they are given: the
    same entries, each with the [slug], [pubDate], [category] and [draft] it
    had, in another order. *)
Theorem sorts_permute (localeCompare : string -> string -> Z)
    (posts : list CollectionEntry) :
  Permutation posts (getSortedPosts posts) /\
  Permutation posts (getSortedPostsByCategory localeCompare posts).
Proof. split; apply sort_perm. Qed.

(** C8. The comparison of [getSortedPostsByCategory] is never [NaN] and
    relates every two entries one way or the other.  For two entries of the
    same category key that both lack a sequence number the two sentinels are
    found equal, their difference (which would be [NaN]) is not taken, and
    the result is the difference of the dates. *)
Theorem byCategory_total (localeCompare : string -> string -> Z)
    (a b : CollectionEntry) :
  consistent localeCompare ->
  isNaN (byCategory localeCompare a b) = false /\
  (notAfter (byCategory localeCompare) a b \/
   notAfter (byCategory localeCompare) b a) /\
  (localeCompare (categoryOf (data a)) (categoryOf (data b)) = 0 ->
   extractSequenceNumber (slug a) = Infinity ->
   extractSequenceNumber (slug b) = Infinity ->
   strictNeq (extractSequenceNumber (slug a)) (extractSequenceNumber (slug b)) = false /\
   sub (extractSequenceNumber (slug a)) (extractSequenceNumber (slug b)) = NaN /\
   byCategory localeCompare a b = Num (pubDate (data b) - pubDate (data a))).
Proof.
  intros [Hanti Htrans]. split; [apply byCategory_not_NaN|]. split.
  - rewrite !notAfter_byCategory. now apply categoryOrdered_total.
  - intros Hc Ha Hb. unfold byCategory. cbv zeta.
    rewrite Hc, Ha, Hb. repeat split.
Qed.

Lemma byCategory_total_witness :
  byCategory codeUnitCompare (post "a/x" (Some "A") 10) (post "a/y" (Some "A") 30)
  = Num 20.
Proof.
  refine (proj2 (proj2 (proj2 (proj2
            (byCategory_total codeUnitCompare (post "a/x" (Some "A") 10)
               (post "a/y" (Some "A") 30) codeUnitCompare_consistent))
            eq_refl eq_refl eq_refl))).
Defined.

(** ** [getFilteredPosts] *)

Lemma not_draft_iff (e : CollectionEntry) :
  not_ (draft (data e)) = true <-> notDraft e.
Proof.
  unfold notDraft. destruct (draft (data e)) as [[|]|]; simpl;
    split; congruence.
Qed.

Lemma filter_Subsequence {A : Type} (f : A -> bool) (l : list A) :
  Subsequence (List.filter f l) l.
Proof.
  induction l as [|x l IH]; simpl; [constructor|].
  destruct (f x); now constructor.
Qed.

Lemma Subsequence_filter {A : Type} (f : A -> bool) (l' l : list A) :
  Subsequence l' l -> Forall (fun x => f x = true) l' ->
  Subsequence l' (List.filter f l).
Proof.
  induction 1 as [|x l1 l2 H IH|x l1 l2 H IH]; intros Hall; simpl.
  - constructor.
  - inversion Hall as [|? ? Hx Hl1]; subst. rewrite Hx.
    constructor. now apply IH.
  - destruct (f x); [constructor|]; now apply IH.
Qed.

Lemma filter_true {A : Type} (l : list A) : List.filter (fun _ => true) l = l.
Proof. induction l as [|x l IH]; simpl; [reflexivity|now rewrite IH]. Qed.

(** C4. Outside production [getFilteredPosts] returns the collection as it
    is.  In production it returns the entries whose [draft] is not [true],
    in the order of the collection and all of them: the result is the
    collection with entries left out, an entry is in it exactly when it is
    in the collection and is not a draft, and every selection of non-draft
    entries of the collection is a selection of the result. *)
Theorem getFilteredPosts_spec (ContentCollectionKey : Type)
    (content : ContentCollectionKey -> list CollectionEntry)
    (contentCollectionType : ContentCollectionKey) :
  getFilteredPosts ContentCollectionKey content false contentCollectionType
  = content contentCollectionType /\
  Subsequence
    (getFilteredPosts ContentCollectionKey content true contentCollectionType)
    (content contentCollectionType) /\
  (forall e,
     In e (getFilteredPosts ContentCollectionKey content true contentCollectionType)
     <-> In e (content contentCollectionType) /\ notDraft e) /\
  (forall l,
     Subsequence l (content contentCollectionType) -> Forall notDraft l ->
     Subsequence l
       (getFilteredPosts ContentCollectionKey content true contentCollectionType)).
Proof.
  unfold getFilteredPosts, getCollection. repeat split.
  - apply filter_true.
  - apply filter_Subsequence.
  - now apply filter_In in H.
  - apply filter_In in H. now apply not_draft_iff.
  - intros [Hin Hd]. apply filter_In. split; [exact Hin|].
    now apply not_draft_iff.
  - intros l Hl Hall. apply Subsequence_filter; [exact Hl|].
    eapply Forall_impl; [|exact Hall]. intros e. apply not_draft_iff.
Qed.

(** ** Category keys *)

Lemma uncategorized_nonempty : uncategorized <> "".
Proof. discriminate. Qed.

Lemma categoryOf_nonempty (d : PostData) : categoryOf d <> "".
Proof.
  unfold categoryOf, orElse.
  destruct (category d) as [[|c s]|]; discriminate.
Qed.

Lemma categoryOf_cases (d : PostData) (c : string) :
  categoryOf d = c <->
  (category d = Some c /\ c <> "") \/
  ((category d = None \/ category d = Some "") /\ c = uncategorized).
Proof.
  unfold categoryOf, orElse. split.
  - intros <-. destruct (category d) as [[|x s]|]; auto.
    left. split; [reflexivity|discriminate].
  - intros [[-> Hc]|[[->| ->] ->]]; try reflexivity.
    destruct c; [congruence|reflexivity].
Qed.

Lemma categoryOf_spec (d : PostData) :
  category d <> Some "" -> categoryOf d = specCategoryKey d.
Proof.
  unfold categoryOf, orElse, specCategoryKey.
  destruct (category d) as [[|x s]|]; congruence.
Qed.

Lemma existsb_eqb_In (x : string) (s : list string) :
  existsb (String.eqb x) s = true <-> In x s.
Proof.
  rewrite existsb_exists. split.
  - intros (y & Hy & E). apply String.eqb_eq in E. now subst.
  - intros H. exists x. split; [exact H|apply String.eqb_refl].
Qed.

Lemma setAdd_In (s : list string) (x c : string) :
  In c (setAdd s x) <-> In c s \/ c = x.
Proof.
  unfold setAdd. destruct (existsb (String.eqb x) s) eqn:E.
  - apply existsb_eqb_In in E. split; [auto|]. intros [H| ->]; assumption.
  - rewrite in_app_iff. simpl. intuition.
Qed.

Lemma setAdd_NoDup (s : list string) (x : string) :
  NoDup s -> NoDup (setAdd s x).
Proof.
  intros H. unfold setAdd. destruct (existsb (String.eqb x) s) eqn:E; [exact H|].
  assert (~ In x s) as Hx.
  { intros Hin. apply existsb_eqb_In in Hin. congruence. }
  apply NoDup_app; [exact H|repeat constructor; auto|].
  intros a Ha [<-|[]]. contradiction.
Qed.

Lemma fold_setAdd (posts : list CollectionEntry) (acc : list string) :
  let out := fold_left (fun categoriesSet post =>
                          setAdd categoriesSet (categoryOf (data post))) posts acc in
  (NoDup acc -> NoDup out) /\
  (forall c, In c out <->
             In c acc \/ exists p, In p posts /\ categoryOf (data p) = c).
Proof.
  revert acc; induction posts as [|p posts IH]; intros acc; simpl.
  - split; [auto|]. intros c. split; [auto|]. intros [H|(p & [] & _)]. exact H.
  - destruct (IH (setAdd acc (categoryOf (data p)))) as [IHn IHi]. split.
    + intros H. apply IHn. now apply setAdd_NoDup.
    + intros c. rewrite IHi, setAdd_In. split.
      * intros [[H| ->]|(q & Hq & E)]; eauto.
      * intros [H|(q & [<-|Hq] & E)]; eauto.
Qed.

Lemma collectCategories_NoDup (posts : list CollectionEntry) :
  NoDup (collectCategories posts).
Proof. apply (fold_setAdd posts []). constructor. Qed.

Lemma collectCategories_In (posts : list CollectionEntry) (c : string) :
  In c (collectCategories posts) <->
  exists p, In p posts /\ categoryOf (data p) = c.
Proof.
  unfold collectCategories.
  rewrite (proj2 (fold_setAdd posts []) c). simpl. tauto.
Qed.

Lemma getUniqueCategories_In (localeCompare : string -> string -> Z)
    (posts : list CollectionEntry) (c : string) :
  In c (getUniqueCategories localeCompare posts) <->
  exists p, In p posts /\ categoryOf (data p) = c.
Proof.
  unfold getUniqueCategories. rewrite sort_In. apply collectCategories_In.
Qed.

Lemma getUniqueCategories_sorted (localeCompare : string -> string -> Z)
    (posts : list CollectionEntry) :
  consistent localeCompare ->
  StronglySorted (fun a b => localeCompare a b <= 0)
    (getUniqueCategories localeCompare posts).
Proof.
  intros [Hanti Htrans].
  assert (Hna : forall a b, notAfter (fun a b => Num (localeCompare a b)) a b
                            <-> localeCompare a b <= 0).
  { intros a b. unfold notAfter, SortCompare. cbn [Number.leb].
    now rewrite Z.leb_le. }
  apply StronglySorted_weaken
    with (R := notAfter (fun a b => Num (localeCompare a b))).
  - intros a b. apply Hna.
  - apply sort_sorted.
    + intros a b. rewrite !Hna.
      destruct (localeCompare_flip localeCompare Hanti a b) as [H _]. lia.
    + intros a b c. rewrite !Hna. apply Htrans.
Qed.

(** C6, as the code has it.  The result of [getUniqueCategories] has no
    duplicate; it contains [c] exactly when some entry has the non-empty
    category [c], or some entry has no category or the empty one and [c] is
    the fallback; and it is in the order of the collation. *)
Theorem getUniqueCategories_spec (localeCompare : string -> string -> Z)
    (posts : list CollectionEntry) :
  consistent localeCompare ->
  NoDup (getUniqueCategories localeCompare posts) /\
  (forall c,
     In c (getUniqueCategories localeCompare posts) <->
     exists p, In p posts /\
       ((category (data p) = Some c /\ c <> "") \/
        ((category (data p) = None \/ category (data p) = Some "") /\
         c = uncategorized))) /\
  StronglySorted (fun a b => localeCompare a b <= 0)
    (getUniqueCategories localeCompare posts).
Proof.
  intros Hc. split; [|split].
  - apply sort_NoDup, collectCategories_NoDup.
  - intros c. rewrite getUniqueCategories_In.
    split; intros (p & Hp & H); exists p; (split; [exact Hp|]);
      now apply categoryOf_cases.
  - now apply getUniqueCategories_sorted.
Qed.

Lemma getUniqueCategories_spec_witness :
  NoDup (getUniqueCategories codeUnitCompare examplePosts) /\
  StronglySorted (fun a b => codeUnitCompare a b <= 0)
    (getUniqueCategories codeUnitCompare examplePosts).
Proof.
  exact (conj
           (proj1 (getUniqueCategories_spec codeUnitCompare examplePosts
                     codeUnitCompare_consistent))
           (proj2 (proj2 (getUniqueCategories_spec codeUnitCompare examplePosts
                            codeUnitCompare_consistent)))).
Defined.

(** C6 as it is worded fails for an entry whose category is the empty
    string: the entry has the category [""], and [""] is not in the result. *)
Lemma getUniqueCategories_empty_category :
  ~ (forall c,
       In c (getUniqueCategories codeUnitCompare [post "a/1-x" (Some "") 0]) <->
       exists p, In p [post "a/1-x" (Some "") 0] /\
         (category (data p) = Some c \/
          (category (data p) = None /\ c = uncategorized))).
Proof.
  intros H. specialize (H "").
  assert (Hin : In "" (getUniqueCategories codeUnitCompare
                         [post "a/1-x" (Some "") 0])).
  { apply H. eexists; split; [left; reflexivity|]. left. reflexivity. }
  simpl in Hin. destruct Hin as [Hin|[]]. discriminate Hin.
Qed.

(** C3, as the code has it.  An entry without category is keyed by the
    fallback and an entry with a category other than the empty string by
    that category: for such entries the key is the one of the
    specification, in the comparison of [getSortedPostsByCategory], whose
    result is the collation of the two keys when they do not collate equal,
    and in [getUniqueCategories], which returns the keys of the entries. *)
Theorem category_key_spec (localeCompare : string -> string -> Z)
    (a b : CollectionEntry) (posts : list CollectionEntry) :
  category (data a) <> Some "" ->
  category (data b) <> Some "" ->
  Forall (fun p => category (data p) <> Some "") posts ->
  (category (data a) = None -> categoryOf (data a) = uncategorized) /\
  (forall c, category (data a) = Some c -> categoryOf (data a) = c) /\
  (localeCompare (specCategoryKey (data a)) (specCategoryKey (data b)) <> 0 ->
   byCategory localeCompare a b
   = Num (localeCompare (specCategoryKey (data a)) (specCategoryKey (data b)))) /\
  (localeCompare (specCategoryKey (data a)) (specCategoryKey (data b)) = 0 ->
   byCategory localeCompare a b
   = if strictNeq (extractSequenceNumber (slug a)) (extractSequenceNumber (slug b))
     then sub (extractSequenceNumber (slug a)) (extractSequenceNumber (slug b))
     else Num (pubDate (data b) - pubDate (data a))) /\
  (forall c,
     In c (getUniqueCategories localeCompare posts) <->
     exists p, In p posts /\ specCategoryKey (data p) = c).
Proof.
  intros Ha Hb Hposts.
  pose proof (categoryOf_spec _ Ha) as Ka.
  pose proof (categoryOf_spec _ Hb) as Kb.
  repeat split.
  - intros E. rewrite Ka. unfold specCategoryKey. now rewrite E.
  - intros c E. rewrite Ka. unfold specCategoryKey. now rewrite E.
  - intros Hne. unfold byCategory. cbv zeta. rewrite Ka, Kb.
    destruct (Z.eqb_spec (localeCompare (specCategoryKey (data a))
                            (specCategoryKey (data b))) 0); [contradiction|].
    reflexivity.
  - intros He. unfold byCategory. cbv zeta. rewrite Ka, Kb, He. reflexivity.
  - rewrite getUniqueCategories_In. intros (p & Hp & E). exists p.
    split; [exact Hp|]. rewrite <- E. symmetry. apply categoryOf_spec.
    rewrite Forall_forall in Hposts. now apply Hposts.
  - rewrite getUniqueCategories_In. intros (p & Hp & E). exists p.
    split; [exact Hp|]. rewrite <- E. apply categoryOf_spec.
    rewrite Forall_forall in Hposts. now apply Hposts.
Qed.

Lemma category_key_spec_witness :
  byCategory codeUnitCompare (post "b/z" None 50) (post "a/1-y" (Some "A") 200)
  = Num (codeUnitCompare uncategorized "A").
Proof.
  refine (proj1 (proj2 (proj2
            (category_key_spec codeUnitCompare (post "b/z" None 50)
               (post "a/1-y" (Some "A") 200) examplePosts _ _ _))) _).
  - discriminate.
  - discriminate.
  - repeat constructor; discriminate.
  - discriminate.
Defined.

(** C3 as it is worded fails for an entry whose category is the empty
    string: the category is present and the key is the fallback. *)
Lemma category_key_empty_category :
  category (data (post "a/1-x" (Some "") 0)) = Some "" /\
  categoryOf (data (post "a/1-x" (Some "") 0)) <> "" /\
  categoryOf (data (post "a/1-x" (Some "") 0))
  <> specCategoryKey (data (post "a/1-x" (Some "") 0)) /\
  getUniqueCategories codeUnitCompare [post "a/1-x" (Some "") 0] <> [""].
Proof. repeat split; discriminate. Qed.

(** ** The empty category *)

Lemma categoryOf_withoutEmptyCategory (p : CollectionEntry) :
  categoryOf (data (withoutEmptyCategory p)) = categoryOf (data p).
Proof.
  unfold withoutEmptyCategory, categoryOf.
  destruct (category (data p)) as [[|c s]|] eqn:E; simpl; rewrite ?E; reflexivity.
Qed.

Lemma byCategory_withoutEmptyCategory (localeCompare : string -> string -> Z)
    (a b : CollectionEntry) :
  byCategory localeCompare (withoutEmptyCategory a) (withoutEmptyCategory b)
  = byCategory localeCompare a b.
Proof.
  unfold byCategory. rewrite !categoryOf_withoutEmptyCategory.
  assert (H : forall p, slug (withoutEmptyCategory p) = slug p /\
                        pubDate (data (withoutEmptyCategory p)) = pubDate (data p)).
  { intros p. unfold withoutEmptyCategory.
    destruct (category (data p)) as [[|c s]|]; auto. }
  destruct (H a) as [-> ->], (H b) as [-> ->]. reflexivity.
Qed.

Lemma collectCategories_map (f : CollectionEntry -> CollectionEntry)
    (posts : list CollectionEntry) :
  (forall p, categoryOf (data (f p)) = categoryOf (data p)) ->
  collectCategories (map f posts) = collectCategories posts.
Proof.
  intros H. unfold collectCategories. generalize (@nil string).
  induction posts as [|p posts IH]; intros acc; simpl; [reflexivity|].
  now rewrite H, IH.
Qed.

(** C9. An entry whose category is the empty string is treated as an entry
    without category: taking the empty categories away changes neither the
    order in which [getSortedPostsByCategory] puts the entries nor the
    result of [getUniqueCategories]; the key of such an entry is the
    fallback; and the empty string is never a key nor in the result of
    [getUniqueCategories]. *)
Theorem empty_category_as_absent (localeCompare : string -> string -> Z)
    (posts : list CollectionEntry) :
  getSortedPostsByCategory localeCompare (map withoutEmptyCategory posts)
  = map withoutEmptyCategory (getSortedPostsByCategory localeCompare posts) /\
  getUniqueCategories localeCompare (map withoutEmptyCategory posts)
  = getUniqueCategories localeCompare posts /\
  (forall p, category (data p) = Some "" ->
             category (data (withoutEmptyCategory p)) = None /\
             categoryOf (data p) = uncategorized) /\
  (forall p, categoryOf (data p) <> "") /\
  ~ In "" (getUniqueCategories localeCompare posts).
Proof.
  split; [|split; [|split; [|split]]].
  - apply sort_map. apply byCategory_withoutEmptyCategory.
  - unfold getUniqueCategories. f_equal.
    apply collectCategories_map, categoryOf_withoutEmptyCategory.
  - intros p E. unfold withoutEmptyCategory, categoryOf. rewrite E. auto.
  - intros p. apply categoryOf_nonempty.
  - rewrite getUniqueCategories_In. intros (p & _ & E).
    now apply (categoryOf_nonempty (data p)).
Qed.

(** ** [isSameCategory] *)

Lemma isSameCategory_eq (category1 category2 : option string) :
  isSameCategory category1 category2 = true <-> category1 = category2.
Proof.
  destruct category1 as [a|], category2 as [b|]; simpl;
    try (split; congruence).
  rewrite String.eqb_eq. split; congruence.
Qed.

(** C10. [isSameCategory] compares the categories as they are given, without
    the fallback: it is true exactly for equal arguments, so true for two
    absent categories and false for an absent category and the fallback
    literal, although an entry without category and an entry of the
    fallback category have the same key. *)
Theorem isSameCategory_no_fallback :
  (forall category1 category2,
     isSameCategory category1 category2 = true <-> category1 = category2) /\
  isSameCategory None None = true /\
  isSameCategory None (Some uncategorized) = false /\
  isSameCategory (Some uncategorized) None = false /\
  (forall d1 d2 r1 r2,
     categoryOf (mkData d1 None r1) = categoryOf (mkData d2 (Some uncategorized) r2)).
Proof.
  split; [exact isSameCategory_eq|]. repeat split.
Qed.


(** * Further properties of the code *)

(** ** More on the sort *)

Section SortMore.
Context {A : Type}.
Variable comparefn : A -> A -> number.

Lemma insert_least (x : A) (l : list A) :
  Forall (notAfter comparefn x) l -> insert comparefn x l = x :: l.
Proof.
  destruct l as [|y l]; [reflexivity|].
  intros H. inversion H as [|? ? Hy _]; subst.
  cbn [insert]. unfold notAfter in Hy. now rewrite Hy.
Qed.

Lemma sort_sorted_id (l : list A) :
  StronglySorted (notAfter comparefn) l -> sort comparefn l = l.
Proof.
  induction 1 as [|a l Hl IH Ha]; [reflexivity|].
  cbn [sort]. rewrite IH. now apply insert_least.
Qed.

Lemma insert_ext (c2 : A -> A -> number) (x : A) (l : list A) :
  (forall y, In y l -> comparefn x y = c2 x y) ->
  insert comparefn x l = insert c2 x l.
Proof.
  induction l as [|y l IH]; intros H; [reflexivity|].
  cbn [insert]. unfold SortCompare. rewrite (H y) by now left.
  destruct (Number.leb _ _); [reflexivity|].
  f_equal. apply IH. intros z Hz. apply H. now right.
Qed.

Lemma sort_ext_in (c2 : A -> A -> number) (l : list A) :
  (forall x y, In x l -> In y l -> comparefn x y = c2 x y) ->
  sort comparefn l = sort c2 l.
Proof.
  induction l as [|x l IH]; intros H; [reflexivity|].
  cbn [sort]. rewrite IH by (intros; apply H; now right).
  apply insert_ext. intros y Hy. apply H; [now left|].
  right. now apply (sort_In c2 l y).
Qed.

Hypothesis total : forall x y, notAfter comparefn x y \/ notAfter comparefn y x.
Hypothesis trans : forall x y z,
  notAfter comparefn x y -> notAfter comparefn y z -> notAfter comparefn x z.

Lemma sort_idempotent (l : list A) :
  sort comparefn (sort comparefn l) = sort comparefn l.
Proof. apply sort_sorted_id. now apply sort_sorted. Qed.

Lemma insert_filter (f : A -> bool) (x : A) (l : list A) :
  StronglySorted (notAfter comparefn) l ->
  List.filter f (insert comparefn x l)
  = if f x then insert comparefn x (List.filter f l) else List.filter f l.
Proof.
  induction 1 as [|y l Hl IH Hy]; [cbn; now destruct (f x)|].
  cbn [insert].
  destruct (Number.leb (SortCompare comparefn x y) (Num 0)) eqn:E.
  - cbn [List.filter]. destruct (f x); [|reflexivity].
    symmetry. apply insert_least.
    assert (Hall : Forall (notAfter comparefn x) (y :: l)).
    { constructor; [exact E|]. eapply Forall_impl; [|exact Hy].
      intros z. now apply trans. }
    rewrite Forall_forall in Hall |- *. intros z Hz.
    apply Hall. change (In z (List.filter f (y :: l))) in Hz.
    now apply filter_In in Hz.
  - cbn [List.filter]. rewrite IH.
    destruct (f y), (f x); try reflexivity.
    cbn [insert]. now rewrite E.
Qed.

Lemma sort_filter (f : A -> bool) (l : list A) :
  List.filter f (sort comparefn l) = sort comparefn (List.filter f l).
Proof.
  induction l as [|x l IH]; [reflexivity|].
  cbn [sort List.filter]. rewrite insert_filter by now apply sort_sorted.
  rewrite IH. now destruct (f x).
Qed.

(** Two sorted arrangements of the same elements are the same when no two
    different elements are tied. *)
Lemma sorted_perm_unique (l1 l2 : list A) :
  (forall x y, In x l1 -> In y l1 ->
               notAfter comparefn x y -> notAfter comparefn y x -> x = y) ->
  StronglySorted (notAfter comparefn) l1 ->
  StronglySorted (notAfter comparefn) l2 ->
  Permutation l1 l2 -> l1 = l2.
Proof.
  intros Hanti H1; revert l2; induction H1 as [|a l1 H1 IH Ha];
    intros l2 H2 Hp.
  - apply Permutation_nil in Hp. now subst.
  - destruct l2 as [|b l2].
    { apply Permutation_sym, Permutation_nil in Hp. discriminate. }
    inversion H2 as [|? ? H2' Hb]; subst.
    rewrite Forall_forall in Ha, Hb.
    assert (Hbin : In b (a :: l1)).
    { eapply Permutation_in; [apply Permutation_sym; exact Hp|now left]. }
    assert (Hain : In a (b :: l2)).
    { eapply Permutation_in; [exact Hp|now left]. }
    assert (a = b) as <-.
    { destruct Hbin as [E|Hbin]; [exact E|].
      destruct Hain as [E|Hain]; [now symmetry|].
      apply Hanti; [now left|now right|now apply Ha|now apply Hb]. }
    f_equal. apply IH.
    + intros x y Hx Hy. apply Hanti; now right.
    + exact H2'.
    + eapply Permutation_cons_inv. exact Hp.
Qed.

Lemma sort_perm_unique (l1 l2 : list A) :
  (forall x y, In x l1 -> In y l1 ->
               notAfter comparefn x y -> notAfter comparefn y x -> x = y) ->
  Permutation l1 l2 -> sort comparefn l1 = sort comparefn l2.
Proof.
  intros Hanti Hp. apply sorted_perm_unique.
  - intros x y Hx Hy. apply Hanti; now apply (sort_In comparefn l1).
  - now apply sort_sorted.
  - now apply sort_sorted.
  - eapply perm_trans; [apply Permutation_sym, sort_perm|].
    eapply perm_trans; [exact Hp|apply sort_perm].
Qed.
End SortMore.

(** ** More on [extractSequenceNumber] *)

(** X1. The result of [extractSequenceNumber] is [Infinity] or a natural number:
    it is never [NaN], never negative and never [NegInfinity]. *)
Theorem extractSequenceNumber_natural_or_Infinity (slug : string) :
  isNaN (extractSequenceNumber slug) = false /\
  Number.leb (Num 0) (extractSequenceNumber slug) = true /\
  (extractSequenceNumber slug = Infinity \/
   exists n, 0 <= n /\ extractSequenceNumber slug = Num n).
Proof.
  pose proof (extractSequenceNumber_range slug) as H.
  repeat split; [| |exact H]; destruct H as [->|(n & Hn & ->)]; try reflexivity.
  cbn. now apply Z.leb_le.
Qed.

Lemma extractSequenceNumber_after_slash (pre seg : string) :
  extractSequenceNumber (pre ++ String "/" seg) = extractSequenceNumber seg.
Proof. unfold extractSequenceNumber. now rewrite filename_after_slash. Qed.

(** X2. Only what follows the last ['/'] counts: digits in a directory name are
    not read, and a slug that ends with ['/'] has no sequence number. *)
Theorem extractSequenceNumber_last_segment (pre seg : string) :
  extractSequenceNumber (pre ++ "/" ++ seg) = extractSequenceNumber seg /\
  extractSequenceNumber (pre ++ "/") = Infinity.
Proof.
  split.
  - apply extractSequenceNumber_after_slash.
  - now rewrite (extractSequenceNumber_after_slash pre "").
Qed.

Lemma split_with_slash (s : string) :
  noSlash s = false -> exists a b rest, split "/" s = a :: b :: rest.
Proof.
  induction s as [|c s IH]; cbn [noSlash split]; [discriminate|].
  destruct (Ascii.eqb c "/"); cbn [negb andb].
  - intros _. destruct (split "/" s) as [|b rest] eqn:E.
    + now destruct (split_nonempty "/" s).
    + now exists "", b, rest.
  - intros H. destruct (IH H) as (a & b & rest & ->).
    now exists (String c a), b, rest.
Qed.

Lemma filename_cons (c : ascii) (s : string) :
  Ascii.eqb c "/" = false ->
  filename (String c s) = if noSlash s then String c s else filename s.
Proof.
  intros Hc. destruct (noSlash s) eqn:E.
  - apply filename_noSlash. cbn [noSlash]. now rewrite Hc, E.
  - destruct (split_with_slash s E) as (a & b & rest & Hs).
    unfold filename. cbn [split]. rewrite Hc, Hs. reflexivity.
Qed.

Lemma parseInt10_leading_zero (d : string) :
  startsWithDigit d = true -> parseInt10 (String "0" d) = parseInt10 d.
Proof.
  destruct d as [|c d]; cbn [startsWithDigit]; [discriminate|].
  intros Hc. unfold parseInt10. rewrite Hc.
  change (isDigit "0") with true. cbv iota.
  change (parseDigits 0 (String "0" (String c d)))
    with (parseDigits (10 * 0 + 0) (String c d)).
  reflexivity.
Qed.

(** X3. A zero in front of the digits does not change the number: ["01-a"] and
    ["1-a"] have the same sequence number, so names padded with zeros are
    ordered by value. *)
Theorem extractSequenceNumber_leading_zero (pre seg : string) :
  startsWithDigit seg = true ->
  extractSequenceNumber ("0" ++ seg) = extractSequenceNumber seg /\
  extractSequenceNumber (pre ++ "/" ++ "0" ++ seg)
  = extractSequenceNumber (pre ++ "/" ++ seg).
Proof.
  intros Hd.
  assert (H0 : extractSequenceNumber ("0" ++ seg) = extractSequenceNumber seg).
  { change ("0" ++ seg) with (String "0" seg).
    unfold extractSequenceNumber.
    rewrite (filename_cons "0" seg eq_refl).
    destruct (noSlash seg) eqn:E; [|reflexivity].
    rewrite (filename_noSlash seg E).
    unfold matchLeadingDigits. cbn [digitRun].
    change (isDigit "0") with true. cbv iota.
    destruct (digitRun seg) as [|c d] eqn:Er.
    - apply digitRun_empty in Er. congruence.
    - apply parseInt10_leading_zero.
      destruct seg as [|c' s']; [discriminate|].
      cbn [startsWithDigit] in Hd. cbn [digitRun] in Er.
      rewrite Hd in Er. injection Er as <- _. exact Hd. }
  split; [exact H0|].
  change (pre ++ "/" ++ "0" ++ seg) with (pre ++ String "/" ("0" ++ seg)).
  change (pre ++ "/" ++ seg) with (pre ++ String "/" seg).
  rewrite !extractSequenceNumber_after_slash. exact H0.
Qed.

Lemma extractSequenceNumber_leading_zero_witness :
  extractSequenceNumber "notes/007-intro" = extractSequenceNumber "notes/7-intro".
Proof.
  exact (proj2 (extractSequenceNumber_leading_zero "notes" "7-intro" eq_refl)).
Defined.

(** X4. The file name is the end of the slug after its last ['/']: the slug is
    a prefix, empty or ending with ['/'], followed by the file name, and
    the file name has no ['/']. *)
Theorem filename_is_suffix (slug : string) :
  noSlash (filename slug) = true /\
  exists pre, slug = pre ++ filename slug /\
              (pre = "" \/ exists p, pre = p ++ "/").
Proof.
  destruct (slug_last_segment slug) as (pre & seg & -> & Hseg & Hpre).
  rewrite (filename_last_segment pre seg Hseg Hpre).
  split; [exact Hseg|]. now exists pre.
Qed.

(** ** More on the two sorts *)

Lemma byPubDate_total (x y : CollectionEntry) :
  notAfter byPubDate x y \/ notAfter byPubDate y x.
Proof. rewrite !byPubDate_notAfter. lia. Qed.

Lemma byPubDate_trans (x y z : CollectionEntry) :
  notAfter byPubDate x y -> notAfter byPubDate y z -> notAfter byPubDate x z.
Proof. rewrite !byPubDate_notAfter. lia. Qed.

Lemma byCategory_notAfter_total (localeCompare : string -> string -> Z) :
  consistent localeCompare ->
  forall x y, notAfter (byCategory localeCompare) x y \/
              notAfter (byCategory localeCompare) y x.
Proof.
  intros [Hanti _] x y. rewrite !notAfter_byCategory.
  now apply categoryOrdered_total.
Qed.

Lemma byCategory_notAfter_trans (localeCompare : string -> string -> Z) :
  consistent localeCompare ->
  forall x y z, notAfter (byCategory localeCompare) x y ->
                notAfter (byCategory localeCompare) y z ->
                notAfter (byCategory localeCompare) x z.
Proof.
  intros [Hanti Htrans] x y z. rewrite !notAfter_byCategory.
  now apply categoryOrdered_trans.
Qed.

Lemma strictNeq_seq_same (s : string) :
  strictNeq (extractSequenceNumber s) (extractSequenceNumber s) = false.
Proof.
  destruct (extractSequenceNumber_range s) as [->|(n & _ & ->)];
    unfold strictNeq; cbn [strictEq negb]; [reflexivity|].
  now rewrite Z.eqb_refl.
Qed.

(** X5. The comparison of [getSortedPostsByCategory] is a consistent comparison
    function, as [sort] requires of its argument: an entry compares equal
    to itself, exchanging the arguments reverses the sign, and "not after"
    is transitive. *)
Theorem byCategory_consistent (localeCompare : string -> string -> Z)
    (a b c : CollectionEntry) :
  consistent localeCompare ->
  byCategory localeCompare a a = Num 0 /\
  sign (byCategory localeCompare b a) = - sign (byCategory localeCompare a b) /\
  (notAfter (byCategory localeCompare) a b ->
   notAfter (byCategory localeCompare) b c ->
   notAfter (byCategory localeCompare) a c).
Proof.
  intros Hc. split; [|split].
  - unfold byCategory. cbv zeta.
    rewrite (consistent_refl localeCompare _ Hc). cbn [Z.eqb negb].
    rewrite strictNeq_seq_same. cbn [sub]. now rewrite Z.sub_diag.
  - destruct Hc as [Hanti _].
    destruct (localeCompare_flip localeCompare Hanti
                (categoryOf (data a)) (categoryOf (data b))) as [_ Hz].
    pose proof (Hanti (categoryOf (data a)) (categoryOf (data b))) as Hs.
    unfold byCategory. cbv zeta.
    set (k := localeCompare (categoryOf (data a)) (categoryOf (data b))) in *.
    set (k' := localeCompare (categoryOf (data b)) (categoryOf (data a))) in *.
    destruct (Z.eqb_spec k 0) as [E|E], (Z.eqb_spec k' 0) as [E'|E'];
      cbn [negb]; try (exfalso; tauto).
    + destruct (extractSequenceNumber_range (slug a)) as [->|(n & _ & ->)];
        destruct (extractSequenceNumber_range (slug b)) as [->|(m & _ & ->)];
        unfold strictNeq; cbn [strictEq negb sub sign]; try reflexivity.
      * lia.
      * rewrite (Z.eqb_sym m n).
        destruct (Z.eqb_spec n m); cbn [negb sub sign]; lia.
    + cbn [sign]. exact Hs.
  - now apply byCategory_notAfter_trans.
Qed.

Lemma byCategory_consistent_witness :
  sign (byCategory codeUnitCompare (post "a/x" (Some "A") 10)
          (post "a/2-y" (Some "A") 30))
  = - sign (byCategory codeUnitCompare (post "a/2-y" (Some "A") 30)
              (post "a/x" (Some "A") 10)).
Proof.
  exact (proj1 (proj2 (byCategory_consistent codeUnitCompare
                         (post "a/2-y" (Some "A") 30) (post "a/x" (Some "A") 10)
                         (post "a/x" (Some "A") 10) codeUnitCompare_consistent))).
Defined.

(** X6. Sorting by date what is already sorted by date changes nothing. *)
Theorem getSortedPosts_idempotent (posts : list CollectionEntry) :
  getSortedPosts (getSortedPosts posts) = getSortedPosts posts.
Proof.
  apply sort_idempotent; [exact byPubDate_total|exact byPubDate_trans].
Qed.

(** X7. Sorting by category what is already sorted by category changes
    nothing. *)
Theorem getSortedPostsByCategory_idempotent
    (localeCompare : string -> string -> Z) (posts : list CollectionEntry) :
  consistent localeCompare ->
  getSortedPostsByCategory localeCompare
    (getSortedPostsByCategory localeCompare posts)
  = getSortedPostsByCategory localeCompare posts.
Proof.
  intros Hc. apply sort_idempotent;
    [now apply byCategory_notAfter_total|now apply byCategory_notAfter_trans].
Qed.

Lemma getSortedPostsByCategory_idempotent_witness :
  getSortedPostsByCategory codeUnitCompare
    (getSortedPostsByCategory codeUnitCompare examplePosts)
  = getSortedPostsByCategory codeUnitCompare examplePosts.
Proof.
  exact (getSortedPostsByCategory_idempotent codeUnitCompare examplePosts
           codeUnitCompare_consistent).
Defined.

Lemma tied_byPubDate (z x : CollectionEntry) :
  tied byPubDate z x = (pubDate (data x) =? pubDate (data z)).
Proof.
  unfold tied, SortCompare, byPubDate. cbn [sub Number.leb].
  destruct (Z.eqb_spec (pubDate (data x)) (pubDate (data z))) as [->|H].
  - rewrite Z.sub_diag. reflexivity.
  - destruct (Z.leb_spec (pubDate (data x) - pubDate (data z)) 0);
      destruct (Z.leb_spec (pubDate (data z) - pubDate (data x)) 0);
      try reflexivity; lia.
Qed.

(** X8. The sort by date is stable: the entries of one date are in the result
    in the order they had in the argument. *)
Theorem getSortedPosts_stable (posts : list CollectionEntry) (d : Z) :
  List.filter (fun p => pubDate (data p) =? d) (getSortedPosts posts)
  = List.filter (fun p => pubDate (data p) =? d) posts.
Proof.
  pose proof (sort_stable byPubDate byPubDate_trans (post "" None d) posts) as H.
  rewrite !(filter_ext (tied byPubDate (post "" None d))
              (fun p => pubDate (data p) =? d)) in H
    by (intros p; apply tied_byPubDate).
  exact H.
Qed.

Lemma tied_byCategory (localeCompare : string -> string -> Z)
    (z x : CollectionEntry) :
  consistent localeCompare ->
  tied (byCategory localeCompare) z x = sameKeys localeCompare z x.
Proof.
  intros [Hanti Htrans]. apply eq_true_iff_eq.
  unfold tied, sameKeys. rewrite !andb_true_iff.
  change (Number.leb (SortCompare (byCategory localeCompare) z x) (Num 0) = true)
    with (notAfter (byCategory localeCompare) z x).
  change (Number.leb (SortCompare (byCategory localeCompare) x z) (Num 0) = true)
    with (notAfter (byCategory localeCompare) x z).
  rewrite !notAfter_byCategory. unfold categoryOrdered. cbv zeta.
  destruct (localeCompare_flip localeCompare Hanti
              (categoryOf (data z)) (categoryOf (data x))) as [Hle Heq].
  set (k := localeCompare (categoryOf (data z)) (categoryOf (data x))) in *.
  set (k' := localeCompare (categoryOf (data x)) (categoryOf (data z))) in *.
  rewrite !Z.eqb_eq.
  destruct (extractSequenceNumber_range (slug z)) as [->|(n & _ & ->)];
    destruct (extractSequenceNumber_range (slug x)) as [->|(m & _ & ->)];
    cbn [Number.leb strictEq]; rewrite ?Z.leb_le, ?Z.eqb_eq.
  - split.
    + intros [(H1 & H2) (H3 & H4)].
      assert (k = 0) as E by lia. assert (k' = 0) as E' by lia.
      destruct (H2 E) as [_ D1], (H4 E') as [_ D2].
      specialize (D1 eq_refl). specialize (D2 eq_refl).
      repeat split; lia.
    + intros [[E _] D]. assert (k' = 0) as E' by lia.
      repeat split; try lia; intros; lia.
  - split; [intros [(H1 & H2) (H3 & H4)]|intros [[_ H] _]; discriminate].
    assert (k = 0) as E by lia. destruct (H2 E). discriminate.
  - split; [intros [(H1 & H2) (H3 & H4)]|intros [[_ H] _]; discriminate].
    assert (k' = 0) as E by lia. destruct (H4 E). discriminate.
  - split.
    + intros [(H1 & H2) (H3 & H4)].
      assert (k = 0) as E by lia. assert (k' = 0) as E' by lia.
      destruct (H2 E) as [L1 D1], (H4 E') as [L2 D2].
      assert (n = m) as -> by lia.
      specialize (D1 eq_refl). specialize (D2 eq_refl).
      repeat split; lia.
    + intros [[E ->] D]. assert (k' = 0) as E' by lia.
      repeat split; try lia; intros; lia.
Qed.

(** X9. The sort by category is stable: the entries that agree on category key,
    sequence number and date are in the result in the order they had in
    the argument. *)
Theorem getSortedPostsByCategory_stable
    (localeCompare : string -> string -> Z) (posts : list CollectionEntry)
    (z : CollectionEntry) :
  consistent localeCompare ->
  List.filter (sameKeys localeCompare z)
    (getSortedPostsByCategory localeCompare posts)
  = List.filter (sameKeys localeCompare z) posts.
Proof.
  intros Hc.
  pose proof (sort_stable (byCategory localeCompare)
                (byCategory_notAfter_trans localeCompare Hc) z posts) as H.
  rewrite !(filter_ext (tied (byCategory localeCompare) z)
              (sameKeys localeCompare z)) in H
    by (intros p; now apply tied_byCategory).
  exact H.
Qed.

Lemma getSortedPostsByCategory_stable_witness :
  List.filter (sameKeys codeUnitCompare (post "a/x" (Some "A") 5))
    (getSortedPostsByCategory codeUnitCompare
       [post "b/q" (Some "B") 1; post "a/u" (Some "A") 5; post "a/1-w" (Some "A") 5;
        post "a/v" (Some "A") 5])
  = [post "a/u" (Some "A") 5; post "a/v" (Some "A") 5].
Proof.
  exact (getSortedPostsByCategory_stable codeUnitCompare
           [post "b/q" (Some "B") 1; post "a/u" (Some "A") 5;
            post "a/1-w" (Some "A") 5; post "a/v" (Some "A") 5]
           (post "a/x" (Some "A") 5) codeUnitCompare_consistent).
Defined.

(** X10. Leaving the drafts out and sorting can be done in either order: sorting
    what [getFilteredPosts] returns gives what [getFilteredPosts] returns
    for the sorted collection. *)
Theorem sort_of_filtered (localeCompare : string -> string -> Z)
    (ContentCollectionKey : Type)
    (content : ContentCollectionKey -> list CollectionEntry)
    (PROD : bool) (contentCollectionType : ContentCollectionKey) :
  consistent localeCompare ->
  getSortedPosts
    (getFilteredPosts ContentCollectionKey content PROD contentCollectionType)
  = getFilteredPosts ContentCollectionKey
      (fun c => getSortedPosts (content c)) PROD contentCollectionType /\
  getSortedPostsByCategory localeCompare
    (getFilteredPosts ContentCollectionKey content PROD contentCollectionType)
  = getFilteredPosts ContentCollectionKey
      (fun c => getSortedPostsByCategory localeCompare (content c))
      PROD contentCollectionType.
Proof.
  intros Hc. unfold getFilteredPosts, getCollection, getSortedPosts,
    getSortedPostsByCategory. split; symmetry; apply sort_filter.
  - exact byPubDate_total.
  - exact byPubDate_trans.
  - now apply byCategory_notAfter_total.
  - now apply byCategory_notAfter_trans.
Qed.

Lemma sort_of_filtered_witness :
  getSortedPostsByCategory codeUnitCompare
    (getFilteredPosts unit
       (fun _ => [post "b/z" (Some "B") 50;
                  mkEntry "a/2-x" (mkData 100 (Some "A") (Some true));
                  post "a/1-y" (Some "A") 200]) true tt)
  = [post "a/1-y" (Some "A") 200; post "b/z" (Some "B") 50].
Proof.
  exact (proj2 (sort_of_filtered codeUnitCompare unit
                  (fun _ => [post "b/z" (Some "B") 50;
                             mkEntry "a/2-x" (mkData 100 (Some "A") (Some true));
                             post "a/1-y" (Some "A") 200])
                  true tt codeUnitCompare_consistent)).
Defined.

(** X11. In the result of [getSortedPostsByCategory] the entries of one category
    stand together: an entry between two entries whose keys collate equal
    has a key that collates equal to theirs. *)
Theorem getSortedPostsByCategory_blocks
    (localeCompare : string -> string -> Z) (posts : list CollectionEntry)
    (i j k : nat) (X Y Z : CollectionEntry) :
  consistent localeCompare ->
  (i < j)%nat -> (j < k)%nat ->
  nth_error (getSortedPostsByCategory localeCompare posts) i = Some X ->
  nth_error (getSortedPostsByCategory localeCompare posts) j = Some Y ->
  nth_error (getSortedPostsByCategory localeCompare posts) k = Some Z ->
  localeCompare (categoryOf (data X)) (categoryOf (data Z)) = 0 ->
  localeCompare (categoryOf (data X)) (categoryOf (data Y)) = 0 /\
  localeCompare (categoryOf (data Y)) (categoryOf (data Z)) = 0.
Proof.
  intros [Hanti Htrans] Hij Hjk HX HY HZ Exz.
  pose proof (getSortedPostsByCategory_sorted localeCompare Hanti Htrans posts)
    as Hs.
  destruct (StronglySorted_nth _ _ Hs i j X Y Hij HX HY) as [Hxy _].
  destruct (StronglySorted_nth _ _ Hs j k Y Z Hjk HY HZ) as [Hyz _].
  cbv zeta in Hxy, Hyz.
  pose proof (localeCompare_flip localeCompare Hanti
                (categoryOf (data X)) (categoryOf (data Z))) as [_ Fxz].
  pose proof (localeCompare_flip localeCompare Hanti
                (categoryOf (data X)) (categoryOf (data Y))) as [Fxy Gxy].
  pose proof (localeCompare_flip localeCompare Hanti
                (categoryOf (data Y)) (categoryOf (data Z))) as [Fyz Gyz].
  pose proof (Htrans (categoryOf (data Y)) (categoryOf (data Z))
                (categoryOf (data X))) as T1.
  pose proof (Htrans (categoryOf (data Z)) (categoryOf (data X))
                (categoryOf (data Y))) as T2.
  lia.
Qed.

Lemma getSortedPostsByCategory_blocks_witness :
  codeUnitCompare "A" "A" = 0 /\ codeUnitCompare "A" "A" = 0.
Proof.
  refine (getSortedPostsByCategory_blocks codeUnitCompare
            [post "a/3-z" (Some "A") 1; post "b/z" (Some "B") 50;
             post "a/2-x" (Some "A") 100; post "a/1-y" (Some "A") 200]
            0 1 2 (post "a/1-y" (Some "A") 200) (post "a/2-x" (Some "A") 100)
            (post "a/3-z" (Some "A") 1) codeUnitCompare_consistent
            _ _ eq_refl eq_refl eq_refl eq_refl); lia.
Defined.

(** X12. When no two different entries agree on all three keys, the result of
    [getSortedPostsByCategory] does not depend on the order in which the
    entries are given. *)
Theorem getSortedPostsByCategory_order_independent
    (localeCompare : string -> string -> Z)
    (posts posts' : list CollectionEntry) :
  consistent localeCompare ->
  (forall x y, In x posts -> In y posts ->
               sameKeys localeCompare x y = true -> x = y) ->
  Permutation posts posts' ->
  getSortedPostsByCategory localeCompare posts
  = getSortedPostsByCategory localeCompare posts'.
Proof.
  intros Hc Hties Hp. apply sort_perm_unique.
  - now apply byCategory_notAfter_total.
  - now apply byCategory_notAfter_trans.
  - intros x y Hx Hy Hxy Hyx. apply Hties; [exact Hx|exact Hy|].
    rewrite <- (tied_byCategory localeCompare x y Hc).
    unfold tied. unfold notAfter in Hxy, Hyx. now rewrite Hxy, Hyx.
  - exact Hp.
Qed.

Lemma getSortedPostsByCategory_order_independent_witness :
  getSortedPostsByCategory codeUnitCompare examplePosts
  = getSortedPostsByCategory codeUnitCompare (rev examplePosts).
Proof.
  apply (getSortedPostsByCategory_order_independent codeUnitCompare
           examplePosts (rev examplePosts) codeUnitCompare_consistent).
  - intros x y [<-|[<-|[<-|[]]]] [<-|[<-|[<-|[]]]] H;
      try reflexivity; discriminate H.
  - apply Permutation_rev.
Defined.

(** X13. When no two different entries have the same date, the result of
    [getSortedPosts] does not depend on the order in which the entries are
    given. *)
Theorem getSortedPosts_order_independent (posts posts' : list CollectionEntry) :
  (forall x y, In x posts -> In y posts ->
               pubDate (data x) = pubDate (data y) -> x = y) ->
  Permutation posts posts' ->
  getSortedPosts posts = getSortedPosts posts'.
Proof.
  intros Hties Hp. apply sort_perm_unique.
  - exact byPubDate_total.
  - exact byPubDate_trans.
  - intros x y Hx Hy Hxy Hyx. apply Hties; [exact Hx|exact Hy|].
    apply byPubDate_notAfter in Hxy, Hyx. lia.
  - exact Hp.
Qed.

Lemma getSortedPosts_order_independent_witness :
  getSortedPosts examplePosts = getSortedPosts (rev examplePosts).
Proof.
  apply (getSortedPosts_order_independent examplePosts (rev examplePosts)).
  - intros x y [<-|[<-|[<-|[]]]] [<-|[<-|[<-|[]]]] H;
      try reflexivity; discriminate H.
  - apply Permutation_rev.
Defined.

(** X14. For entries of one category with one sequence number, for instance
    entries of one category none of which is numbered, the sort by category
    is the sort by date. *)
Theorem getSortedPostsByCategory_by_date
    (localeCompare : string -> string -> Z) (posts : list CollectionEntry) :
  (forall x y, In x posts -> In y posts ->
     localeCompare (categoryOf (data x)) (categoryOf (data y)) = 0 /\
     extractSequenceNumber (slug x) = extractSequenceNumber (slug y)) ->
  getSortedPostsByCategory localeCompare posts = getSortedPosts posts.
Proof.
  intros H. apply sort_ext_in. intros x y Hx Hy.
  destruct (H x y Hx Hy) as [Ek Es].
  unfold byCategory, byPubDate. cbv zeta.
  rewrite Ek, Es, strictNeq_seq_same. reflexivity.
Qed.

Lemma getSortedPostsByCategory_by_date_witness :
  getSortedPostsByCategory codeUnitCompare
    [post "a/x" (Some "A") 10; post "a/y" (Some "A") 30]
  = getSortedPosts [post "a/x" (Some "A") 10; post "a/y" (Some "A") 30].
Proof.
  apply (getSortedPostsByCategory_by_date codeUnitCompare).
  intros x y [<-|[<-|[]]] [<-|[<-|[]]]; split; reflexivity.
Defined.

(** ** More on [getFilteredPosts] *)

Lemma filter_id_iff {A : Type} (f : A -> bool) (l : list A) :
  List.filter f l = l <-> Forall (fun x => f x = true) l.
Proof.
  split.
  - intros H. apply Forall_forall. intros x Hx.
    rewrite <- H in Hx. now apply filter_In in Hx.
  - induction 1 as [|x l Hx Hl IH]; [reflexivity|].
    cbn [List.filter]. now rewrite Hx, IH.
Qed.

(** X15. Production and development see the same posts exactly when the
    collection has no draft. *)
Theorem getFilteredPosts_same_in_both_modes (ContentCollectionKey : Type)
    (content : ContentCollectionKey -> list CollectionEntry)
    (contentCollectionType : ContentCollectionKey) :
  getFilteredPosts ContentCollectionKey content true contentCollectionType
  = getFilteredPosts ContentCollectionKey content false contentCollectionType
  <-> Forall notDraft (content contentCollectionType).
Proof.
  unfold getFilteredPosts, getCollection. rewrite filter_true, filter_id_iff.
  split; apply Forall_impl; intros e; apply not_draft_iff.
Qed.

(** ** More on the categories *)

(** X16. [isSameCategory] and the category key: categories that [isSameCategory]
    accepts have the same key, and for a category that is a non-empty
    string other than the fallback literal the converse holds, whatever the
    other category is. *)
Theorem isSameCategory_same_key (a b : PostData) (c : string) :
  category a = Some c -> c <> "" -> c <> uncategorized ->
  (forall a' b' : PostData,
     isSameCategory (category a') (category b') = true ->
     categoryOf a' = categoryOf b') /\
  (isSameCategory (category a) (category b) = true <->
   categoryOf a = categoryOf b).
Proof.
  intros Ha Hne Hnf.
  assert (Himp : forall a' b' : PostData,
             isSameCategory (category a') (category b') = true ->
             categoryOf a' = categoryOf b').
  { intros a' b' H. apply isSameCategory_eq in H.
    unfold categoryOf. now rewrite H. }
  split; [exact Himp|]. split; [apply Himp|].
  intros H. apply isSameCategory_eq. rewrite Ha.
  assert (Ka : categoryOf a = c) by (apply categoryOf_cases; auto).
  rewrite Ka in H. symmetry in H. apply categoryOf_cases in H.
  destruct H as [[H _]|[_ H]]; [now symmetry|contradiction].
Qed.

Lemma isSameCategory_same_key_witness :
  isSameCategory (Some "A") None = true <->
  categoryOf (mkData 0 (Some "A") None) = categoryOf (mkData 1 None None).
Proof.
  refine (proj2 (isSameCategory_same_key (mkData 0 (Some "A") None)
                   (mkData 1 None None) "A" eq_refl _ _)); discriminate.
Defined.

Lemma collectCategories_incl (posts : list CollectionEntry) :
  incl (collectCategories posts) (map (fun p => categoryOf (data p)) posts).
Proof.
  intros c Hc. apply collectCategories_In in Hc as (p & Hp & <-).
  apply in_map_iff. now exists p.
Qed.

(** X17. [getUniqueCategories] returns at most one category for each post, and
    no category exactly when there is no post. *)
Theorem getUniqueCategories_size (localeCompare : string -> string -> Z)
    (posts : list CollectionEntry) :
  (List.length (getUniqueCategories localeCompare posts) <= List.length posts)%nat /\
  (getUniqueCategories localeCompare posts = [] <-> posts = []).
Proof.
  split.
  - unfold getUniqueCategories. rewrite sort_length.
    rewrite <- (length_map (fun p => categoryOf (data p)) posts).
    apply NoDup_incl_length;
      [apply collectCategories_NoDup|apply collectCategories_incl].
  - split; [|intros ->; reflexivity].
    destruct posts as [|p posts]; [reflexivity|]. intros H. exfalso.
    assert (Hin : In (categoryOf (data p))
                    (getUniqueCategories localeCompare (p :: posts))).
    { apply getUniqueCategories_In. exists p. split; [now left|reflexivity]. }
    rewrite H in Hin. exact Hin.
Qed.

Lemma collectCategories_perm (posts posts' : list CollectionEntry) :
  Permutation posts posts' ->
  Permutation (collectCategories posts) (collectCategories posts').
Proof.
  intros Hp. apply NoDup_Permutation; try apply collectCategories_NoDup.
  intros c. rewrite !collectCategories_In.
  split; intros (p & Hin & E); exists p; (split; [|exact E]).
  - eapply Permutation_in; eassumption.
  - eapply Permutation_in; [apply Permutation_sym|]; eassumption.
Qed.

Lemma collation_notAfter (localeCompare : string -> string -> Z) (a b : string) :
  notAfter (fun a b => Num (localeCompare a b)) a b <-> localeCompare a b <= 0.
Proof. unfold notAfter, SortCompare. cbn [Number.leb]. now rewrite Z.leb_le. Qed.

Lemma collation_total (localeCompare : string -> string -> Z) :
  consistent localeCompare ->
  forall a b, notAfter (fun a b => Num (localeCompare a b)) a b \/
              notAfter (fun a b => Num (localeCompare a b)) b a.
Proof.
  intros [Hanti _] a b. rewrite !collation_notAfter.
  destruct (localeCompare_flip localeCompare Hanti a b) as [H _]. lia.
Qed.

Lemma collation_trans (localeCompare : string -> string -> Z) :
  consistent localeCompare ->
  forall a b c, notAfter (fun a b => Num (localeCompare a b)) a b ->
                notAfter (fun a b => Num (localeCompare a b)) b c ->
                notAfter (fun a b => Num (localeCompare a b)) a c.
Proof. intros [_ Htrans] a b c. rewrite !collation_notAfter. apply Htrans. Qed.

Lemma getUniqueCategories_perm (localeCompare : string -> string -> Z)
    (posts posts' : list CollectionEntry) :
  consistent localeCompare ->
  (forall x y, In x posts -> In y posts ->
     localeCompare (categoryOf (data x)) (categoryOf (data y)) = 0 ->
     categoryOf (data x) = categoryOf (data y)) ->
  Permutation posts posts' ->
  getUniqueCategories localeCompare posts
  = getUniqueCategories localeCompare posts'.
Proof.
  intros Hc Hanti Hp. unfold getUniqueCategories. apply sort_perm_unique.
  - now apply collation_total.
  - now apply collation_trans.
  - intros a b Ha Hb Hab Hba. apply collation_notAfter in Hab, Hba.
    apply collectCategories_In in Ha as (x & Hx & <-).
    apply collectCategories_In in Hb as (y & Hy & <-).
    apply (Hanti x y Hx Hy).
    destruct Hc as [Hs _].
    destruct (localeCompare_flip localeCompare Hs
                (categoryOf (data x)) (categoryOf (data y))) as [H H0]. lia.
  - now apply collectCategories_perm.
Qed.

Lemma codeUnitCompare_eq (a b : string) : codeUnitCompare a b = 0 -> a = b.
Proof.
  unfold codeUnitCompare. destruct (String.compare a b) eqn:E; try discriminate.
  intros _. now apply String.compare_eq_iff.
Qed.

(** X18. When the category keys of the posts that collate equal are the same
    string, the result of [getUniqueCategories] does not depend on the
    order of the posts. *)
Theorem getUniqueCategories_order_independent
    (localeCompare : string -> string -> Z)
    (posts posts' : list CollectionEntry) :
  consistent localeCompare ->
  (forall x y, In x posts -> In y posts ->
     localeCompare (categoryOf (data x)) (categoryOf (data y)) = 0 ->
     categoryOf (data x) = categoryOf (data y)) ->
  Permutation posts posts' ->
  getUniqueCategories localeCompare posts
  = getUniqueCategories localeCompare posts'.
Proof. apply getUniqueCategories_perm. Qed.

Lemma getUniqueCategories_order_independent_witness :
  getUniqueCategories codeUnitCompare examplePosts
  = getUniqueCategories codeUnitCompare (rev examplePosts).
Proof.
  exact (getUniqueCategories_order_independent codeUnitCompare examplePosts
           (rev examplePosts) codeUnitCompare_consistent
           (fun x y _ _ => codeUnitCompare_eq _ _)
           (Permutation_rev examplePosts)).
Defined.

Lemma StronglySorted_remove {A : Type} (R : A -> A -> Prop) (l1 l2 : list A)
    (x : A) :
  StronglySorted R (l1 ++ x :: l2) -> StronglySorted R (l1 ++ l2).
Proof.
  induction l1 as [|a l1 IH]; cbn [app]; intros H;
    inversion H as [|? ? Hs Hf]; subst; [exact Hs|].
  constructor; [now apply IH|].
  apply Forall_app in Hf as [Hf1 Hf2]. inversion Hf2; subst.
  apply Forall_app. now split.
Qed.

Lemma StronglySorted_map {A B : Type} (f : A -> B) (R : B -> B -> Prop)
    (l : list A) :
  StronglySorted (fun x y => R (f x) (f y)) l -> StronglySorted R (map f l).
Proof.
  induction 1 as [|a l Hl IH Ha]; cbn [map]; constructor; [exact IH|].
  apply Forall_map. exact Ha.
Qed.

Lemma fold_setAdd_sorted (R : string -> string -> Prop)
    (posts : list CollectionEntry) (acc : list string) :
  StronglySorted R (acc ++ map (fun p => categoryOf (data p)) posts) ->
  StronglySorted R
    (fold_left (fun categoriesSet post =>
                  setAdd categoriesSet (categoryOf (data post))) posts acc).
Proof.
  revert acc; induction posts as [|p posts IH]; intros acc H; cbn [fold_left].
  - cbn [map] in H. now rewrite app_nil_r in H.
  - apply IH. cbn [map] in H. unfold setAdd.
    destruct (existsb _ acc).
    + eapply StronglySorted_remove. exact H.
    + now rewrite <- app_assoc.
Qed.

(** X19. When the category keys of the posts that collate equal are the same
    string, [getUniqueCategories] lists the categories in the order in
    which their blocks stand in the result of [getSortedPostsByCategory]:
    it is the list of the category keys of the sorted posts, each taken
    where it is first met. *)
Theorem getUniqueCategories_of_sorted
    (localeCompare : string -> string -> Z) (posts : list CollectionEntry) :
  consistent localeCompare ->
  (forall x y, In x posts -> In y posts ->
     localeCompare (categoryOf (data x)) (categoryOf (data y)) = 0 ->
     categoryOf (data x) = categoryOf (data y)) ->
  getUniqueCategories localeCompare posts
  = collectCategories (getSortedPostsByCategory localeCompare posts).
Proof.
  intros Hc Hanti.
  rewrite (getUniqueCategories_perm localeCompare posts
             (getSortedPostsByCategory localeCompare posts) Hc Hanti)
    by apply sort_perm.
  unfold getUniqueCategories at 1. apply sort_sorted_id.
  apply StronglySorted_weaken with (R := fun a b => localeCompare a b <= 0);
    [intros a b; apply collation_notAfter|].
  apply fold_setAdd_sorted. cbn [app]. apply StronglySorted_map.
  destruct Hc as [Hs Ht].
  eapply StronglySorted_weaken;
    [|apply (getSortedPostsByCategory_sorted localeCompare Hs Ht)].
  intros x y [H _]. exact H.
Qed.

Lemma getUniqueCategories_of_sorted_witness :
  getUniqueCategories codeUnitCompare examplePosts
  = collectCategories (getSortedPostsByCategory codeUnitCompare examplePosts).
Proof.
  exact (getUniqueCategories_of_sorted codeUnitCompare examplePosts
           codeUnitCompare_consistent (fun x y _ _ => codeUnitCompare_eq _ _)).
Defined.


(** ** The container *)

Section ContainerFacts.
Variable value : Type.
Variable truthy : value -> bool.
Variable isFunction : value -> bool.
Variable call : value -> IoC.Container value -> IoC.completion value * IoC.Container value.

Local Abbreviation Container := (IoC.Container value).
Local Abbreviation register := (IoC.register value).
Local Abbreviation get := (IoC.get value truthy isFunction call).

Lemma Map_get_set (m : IoC.Map value) (name name' : string) (v : value) :
  IoC.Map_get value (IoC.Map_set value m name v) name'
  = if String.eqb name name' then Some v else IoC.Map_get value m name'.
Proof.
  induction m as [|[k w] m IH]; cbn [IoC.Map_set IoC.Map_get].
  - reflexivity.
  - destruct (String.eqb_spec k name) as [->|Hk]; cbn [IoC.Map_get].
    + now destruct (String.eqb name name').
    + rewrite IH. destruct (String.eqb_spec k name') as [->|Hk'];
        [|reflexivity].
      destruct (String.eqb_spec name name'); [congruence|reflexivity].
Qed.

Lemma Map_set_set (m : IoC.Map value) (name : string) (v1 v2 : value) :
  IoC.Map_set value (IoC.Map_set value m name v1) name v2
  = IoC.Map_set value m name v2.
Proof.
  induction m as [|[k w] m IH]; cbn [IoC.Map_set].
  - now rewrite String.eqb_refl.
  - destruct (String.eqb k name) eqn:E; cbn [IoC.Map_set]; rewrite E;
      [reflexivity|]. now rewrite IH.
Qed.

(** X20. A service that is registered and is no function is what [get] returns
    for its name, provided it is truthy, and [get] leaves the container as
    it is; a registration under another name does not change this. *)
Theorem register_get (c : Container) (name other : string) (service v : value) :
  truthy service = true -> isFunction service = false ->
  other <> name ->
  get name (register name service c)
  = (IoC.Return value service, register name service c) /\
  get name (register other v (register name service c))
  = (IoC.Return value service, register other v (register name service c)).
Proof.
  intros Ht Hf Hne. unfold IoC.get, IoC.register. cbn [IoC.services].
  rewrite !Map_get_set, String.eqb_refl.
  destruct (String.eqb_spec other name); [contradiction|].
  rewrite Ht, Hf. cbn [negb]. split; reflexivity.
Qed.

(** X21. A registered service that is falsy is reported as not found. *)
Theorem register_falsy_not_found (c : Container) (name : string) (service : value) :
  truthy service = false ->
  get name (register name service c)
  = (IoC.Throw value (IoC.ServiceNotFound value name), register name service c).
Proof.
  intros Ht. unfold IoC.get, IoC.register. cbn [IoC.services].
  rewrite Map_get_set, String.eqb_refl, Ht. reflexivity.
Qed.

(** X22. Of two registrations under one name the second is the one that
    counts. *)
Theorem register_overwrites (c : Container) (name : string) (s1 s2 : value) :
  register name s2 (register name s1 c) = register name s2 c.
Proof. unfold IoC.register. cbn [IoC.services]. now rewrite Map_set_set. Qed.

(** X23. Once [get] has returned a truthy value that is no function for a name,
    every later [get] of the name returns the same value and leaves the
    container as it is: the instance a factory built is kept, and the
    factory is not called again. *)
Theorem get_cached (c c' : Container) (name : string) (v : value) :
  get name c = (IoC.Return value v, c') ->
  truthy v = true -> isFunction v = false ->
  get name c' = (IoC.Return value v, c').
Proof.
  unfold IoC.get at 1. intros H Ht Hf.
  destruct (IoC.Map_get value (IoC.services value c) name) as [service|] eqn:E;
    [|discriminate].
  destruct (truthy service) eqn:Es; cbn [negb] in H; [|discriminate].
  destruct (isFunction service) eqn:Ef.
  - destruct (call service c) as [[instance|e] c1]; [|discriminate].
    injection H as -> <-. unfold IoC.get. cbn [IoC.services].
    rewrite Map_get_set, String.eqb_refl, Ht, Hf. reflexivity.
  - injection H as -> ->. unfold IoC.get. now rewrite E, Es, Ef.
Qed.
End ContainerFacts.

Lemma register_get_witness :
  IoC.get IoC.sample IoC.sampleTruthy IoC.sampleIsFunction IoC.sampleCall
    "shippingService" IoC.sampleContainer
  = (IoC.Return IoC.sample IoC.ShippingService, IoC.sampleContainer).
Proof.
  refine (proj2 (register_get IoC.sample IoC.sampleTruthy
            IoC.sampleIsFunction IoC.sampleCall
            (IoC.register IoC.sample "paymentService" IoC.PaymentService
               (IoC.newContainer IoC.sample))
            "shippingService" "orderService" IoC.ShippingService
            IoC.orderServiceFactory eq_refl eq_refl _)).
  discriminate.
Defined.

Lemma register_falsy_not_found_witness :
  IoC.get IoC.sample IoC.sampleTruthy IoC.sampleIsFunction IoC.sampleCall
    "logger" (IoC.register IoC.sample "logger" IoC.undefined IoC.sampleContainer)
  = (IoC.Throw IoC.sample (IoC.ServiceNotFound IoC.sample "logger"),
     IoC.register IoC.sample "logger" IoC.undefined IoC.sampleContainer).
Proof.
  exact (register_falsy_not_found IoC.sample IoC.sampleTruthy
           IoC.sampleIsFunction IoC.sampleCall IoC.sampleContainer "logger"
           IoC.undefined eq_refl).
Defined.

Lemma get_cached_witness :
  IoC.get IoC.sample IoC.sampleTruthy IoC.sampleIsFunction IoC.sampleCall
    "orderService"
    (snd (IoC.get IoC.sample IoC.sampleTruthy IoC.sampleIsFunction
            IoC.sampleCall "orderService" IoC.sampleContainer))
  = (IoC.Return IoC.sample (IoC.OrderService IoC.PaymentService IoC.ShippingService),
     snd (IoC.get IoC.sample IoC.sampleTruthy IoC.sampleIsFunction
            IoC.sampleCall "orderService" IoC.sampleContainer)).
Proof.
  exact (get_cached IoC.sample IoC.sampleTruthy IoC.sampleIsFunction
           IoC.sampleCall IoC.sampleContainer _ "orderService" _
           eq_refl eq_refl eq_refl).
Defined.
